(** * Ordered asynchronous inference driver

    A shallow embedding of [do_inference] from the notebook
    [notebooks/110-ct-segmentation-quantize/110-ct-segmentation-quantize.ipynb]
    together with a model of the asynchronous pipeline object it polls
    ([CTAsyncPipeline], imported from [async_inference]).

    The driver is written in a small state-and-exception monad over a
    [world]: the pipeline object and the chronological [trace] of everything
    the driver did to it, everything the engine finished and everything that
    was displayed.  The two [while] loops take a fuel argument; [run]
    supplies enough of it.

    Contents: the monad and the pipeline; the notebook code; the vocabulary
    of the properties; [showarray] with its display handle; the class
    [KitsDataset] of the same notebook; a program logic for the monad with
    the invariant of a run; the properties of [do_inference]; the
    properties of [KitsDataset]; concrete runs and datasets. *)

From stdpp Require Import gmap list strings pretty sorting.

Section Driver.

(** [Image] is an element of [imagelist], [Frame] what [showarray]
    displays, [Err] the payload of an exception raised inside the engine. *)
Context {Image Frame Err : Type}.

(** The post-processed network output for one image. *)
Variable infer : Image → Frame.

(** ** Exceptions and outcomes

    A computation returns a value, lets an exception through, blocks for
    ever in a wait on the engine ([Hang]), or exhausts the fuel given to
    its loops ([OutOfFuel], which [run] never does). *)

Inductive exn :=
| EngineError (e : Err)
| EngineBusy
| IndexError.

Inductive outcome (X : Type) :=
| Return (x : X)
| Raise (e : exn)
| Hang
| OutOfFuel.
Global Arguments Return {X} x.
Global Arguments Raise {X} e.
Global Arguments Hang {X}.
Global Arguments OutOfFuel {X}.

(** ** Observable events, in the order they happen

    One event per call of a pipeline method that returned (with its
    arguments and result), [Raised] for a call in which the engine raised,
    [Finished] when the engine finishes a request, [Showarray] and
    [Print_total] for what the notebook displays. *)

Inductive event :=
| Get_result (id : nat) (results : option (Frame * Image))
| Is_ready (ready : bool)
| Submit_data (inputs : Image) (id : nat) (meta : Image)
| Await_any
| Await_all
| Has_completed_request (r : bool)
| Raised (e : Err)
| Finished (id : nat)
| Showarray (frame : Frame)
| Print_total (frames : nat).

(** ** The engine's free choices

    Everything the external engine decides on its own is read from an
    [oracle], indexed by the number [t] of the engine call being served:
    [finishes t i] tells whether request [i], if in flight, finishes just
    before call [t]; [wakes t] picks the in-flight request whose completion
    ends a blocking [await_any]; [fate_of t] tells whether call [t] is
    served, raises inside the engine, or waits for completions that never
    come. *)

Inductive fate :=
| Normal
| Fails (e : Err)
| Stalls.

Record oracle := Oracle {
  finishes : nat → nat → bool;
  wakes : nat → nat;
  fate_of : nat → fate
}.

(** ** The pipeline object

    [num_requests] infer requests (the capacity), the requests in flight
    ([busy], in submission order), the completion records held for the
    driver (the spec's PendingSet, kept by the pipeline and read with
    [get_result]), the number of calls served so far, and the trace. *)

Record request := Request {
  req_id : nat;
  req_inputs : Image;
  req_meta : Image
}.

Record world := World {
  num_requests : nat;
  busy : list request;
  pending_set : gmap nat (Frame * Image);
  calls : nat;
  trace : list event
}.

Definition M (X : Type) : Type := world → outcome X * world.

Definition ret {X} (x : X) : M X := λ w, (Return x, w).

Definition bind {X Y} (m : M X) (k : X → M Y) : M Y := λ w,
  match m w with
  | (Return x, w') => k x w'
  | (Raise e, w') => (Raise e, w')
  | (Hang, w') => (Hang, w')
  | (OutOfFuel, w') => (OutOfFuel, w')
  end.

Definition raise {X} (e : exn) : M X := λ w, (Raise e, w).
Definition out_of_fuel {X} : M X := λ w, (OutOfFuel, w).

Notation "x ↤ m ;; k" := (bind m (λ x, k))
  (at level 100, m at next level, right associativity).
Notation "m ;;; k" := (bind m (λ _, k))
  (at level 100, right associativity).

Definition log (e : event) (w : world) : world :=
  World (num_requests w) (busy w) (pending_set w) (calls w)
        (trace w ++ [e]).

Definition tick (w : world) : world :=
  World (num_requests w) (busy w) (pending_set w)
        (S (calls w)) (trace w).

(** Modelled from the spec: the completion record of a finished request
    (the methods of [async_inference.CTAsyncPipeline] are not available;
    this and the following definitions stand for them).  It "carries the
    sequence_id it answers, an opaque result payload, and the original
    metadata", and is kept in "a mapping from sequence_id to
    CompletionRecord". *)
Definition complete (q : request) (m : gmap nat (Frame * Image))
  : gmap nat (Frame * Image) :=
  <[req_id q := (infer (req_inputs q), req_meta q)]> m.

(** Modelled from the spec: requests [done] finish and leave the engine,
    which frees their capacity; their completion records join the results
    held for the driver; [rest] stays in flight. *)
Definition retire (done rest : list request) (w : world) : world :=
  World (num_requests w) rest
        (foldr complete (pending_set w) done)
        (calls w)
        (trace w ++ (Finished ∘ req_id <$> done)).

(** Modelled from the spec: "completions may arrive in any order relative
    to submission order because the engine services multiple in-flight
    requests concurrently".  Before serving call number [calls w], the
    engine finishes the in-flight requests the oracle names for that
    call. *)
Definition advance (o : oracle) (w : world) : world :=
  let now := λ q, finishes o (calls w) (req_id q) = true in
  tick (retire (filter now (busy w)) (filter (λ q, ¬ now q) (busy w)) w).

(** Modelled from the spec: a call of a pipeline method either raises the
    engine's own error or is served after the engine has advanced. *)
Definition engine_call {X} (o : oracle) (serve : nat → fate → M X) : M X :=
  λ w,
    match fate_of o (calls w) with
    | Fails e => (Raise (EngineError e), log (Raised e) w)
    | f => serve (calls w) f (advance o w)
    end.

Definition has_capacity (w : world) : bool :=
  bool_decide (length (busy w) < num_requests w).

(** Modelled from the spec: [pipeline.get_result(id)] hands over the
    completion record held for [id] and forgets it ("entries are removed
    the moment they are delivered"), or returns [None]. *)
Definition get_result (o : oracle) (id : nat) : M (option (Frame * Image)) :=
  engine_call o (λ _ _ w,
    let results := pending_set w !! id in
    (Return results,
     log (Get_result id results)
         (World (num_requests w) (busy w)
                (delete id (pending_set w))
                (calls w) (trace w)))).

(** Modelled from the spec: [pipeline.is_ready()] is the "non-blocking
    capacity check": fewer requests in flight than the engine has. *)
Definition is_ready (o : oracle) : M bool :=
  engine_call o (λ _ _ w,
    (Return (has_capacity w), log (Is_ready (has_capacity w)) w)).

(** Modelled from the spec: [pipeline.submit_data(inputs, id, meta)] puts
    a request in flight and "fails with EngineBusy if capacity is currently
    exhausted". *)
Definition submit_data (o : oracle) (inputs : Image) (id : nat) (meta : Image)
  : M unit :=
  engine_call o (λ _ _ w,
    if has_capacity w then
      (Return (),
       log (Submit_data inputs id meta)
           (World (num_requests w) (busy w ++ [Request id inputs meta])
                  (pending_set w) (calls w) (trace w)))
    else (Raise EngineBusy, w)).

(** Modelled from the spec: [pipeline.await_any()] is the "blocking wait
    for any completion", issued "when no submission capacity is available".
    It returns at once when there is capacity; otherwise it returns when
    some in-flight request has finished, and never if the engine stalls
    ("the driver is permitted to block indefinitely"). *)
Definition await_any (o : oracle) : M unit :=
  engine_call o (λ t f w,
    let w := log Await_any w in
    let i := wakes o t `mod` length (busy w) in
    if has_capacity w then (Return (), w)
    else
      match f, busy w !! i with
      | Normal, Some q => (Return (), retire [q] (delete i (busy w)) w)
      | _, _ => (Hang, w)
      end).

(** Modelled from the spec: [pipeline.await_all()] returns when nothing is
    in flight any more. *)
Definition await_all (o : oracle) : M unit :=
  engine_call o (λ _ f w,
    let w := log Await_all w in
    match f, busy w with
    | _, [] => (Return (), w)
    | Normal, _ => (Return (), retire (busy w) [] w)
    | _, _ => (Hang, w)
    end).

(** Modelled from the spec: [pipeline.has_completed_request()] tells
    whether a completion record is held for the driver. *)
Definition has_completed_request (o : oracle) : M bool :=
  engine_call o (λ _ _ w,
    let r := negb (bool_decide (size (pending_set w) = 0)) in
    (Return r, log (Has_completed_request r) w)).

(** Modelled from the spec: [CTAsyncPipeline(..., max_num_requests=0)]
    leaves the number of infer requests to the engine; [capacity] is the
    number it chose. *)
Definition new_pipeline (capacity : nat) : world :=
  World capacity [] ∅ 0 [].

(** ** The notebook code *)

(** [showarray(result, display_handle)]. *)
Definition showarray (frame : Frame) : M unit := λ w,
  (Return (), log (Showarray frame) w).

(** [imagelist[i]]. *)
Definition getitem (imagelist : list Image) (i : nat) : M Image :=
  match imagelist !! i with
  | Some image => ret image
  | None => raise IndexError
  end.

(** The final [print] of the frame count. *)
Definition print_total (frames : nat) : M unit := λ w,
  (Return (), log (Print_total frames) w).

Record locals := Locals {
  next_frame_id : nat;
  next_frame_id_to_show : nat
}.

(** [if results: ... showarray(result, display_handle);
    next_frame_id_to_show += 1]. *)
Definition show_results (results : option (Frame * Image)) (l : locals)
  : M locals :=
  match results with
  | Some (result, meta) =>
      showarray result ;;;
      ret (Locals (next_frame_id l) (next_frame_id_to_show l + 1))
  | None => ret l
  end.

(** The body of [while next_frame_id < len(imagelist) - 1]. *)
Definition main_body (o : oracle) (imagelist : list Image) (l : locals)
  : M locals :=
  results ↤ get_result o (next_frame_id_to_show l) ;;
  l ↤ show_results results l ;;
  ready ↤ is_ready o ;;
  if ready then
    image ↤ getitem imagelist (next_frame_id l) ;;
    submit_data o image (next_frame_id l) image ;;;
    ret (Locals (next_frame_id l + 1) (next_frame_id_to_show l))
  else
    await_any o ;;;
    ret l.

Definition main_cond (imagelist : list Image) (l : locals) : bool :=
  bool_decide (Z.of_nat (next_frame_id l) < Z.of_nat (length imagelist) - 1)%Z.

Fixpoint main_loop (o : oracle) (fuel : nat) (imagelist : list Image)
    (l : locals) : M locals :=
  if main_cond imagelist l then
    match fuel with
    | 0 => out_of_fuel
    | S fuel =>
        l ↤ main_body o imagelist l ;;
        main_loop o fuel imagelist l
    end
  else ret l.

(** The body of [while pipeline.has_completed_request()]. *)
Definition drain_body (o : oracle) (l : locals) : M locals :=
  results ↤ get_result o (next_frame_id_to_show l) ;;
  show_results results l.

Fixpoint drain_loop (o : oracle) (fuel : nat) (l : locals) : M locals :=
  more ↤ has_completed_request o ;;
  if more then
    match fuel with
    | 0 => out_of_fuel
    | S fuel =>
        l ↤ drain_body o l ;;
        drain_loop o fuel l
    end
  else ret l.

(** [do_inference] up to the end of the second loop; the result is the
    final value of the two counters. *)
Definition inference_loops (o : oracle) (fuel : nat) (imagelist : list Image)
  : M locals :=
  l ↤ main_loop o fuel imagelist (Locals 0 0) ;;
  await_all o ;;;
  drain_loop o fuel l.

Definition do_inference (o : oracle) (fuel : nat) (imagelist : list Image)
  : M locals :=
  l ↤ inference_loops o fuel imagelist ;;
  print_total (next_frame_id l + 1) ;;;
  ret l.

(** Two loop iterations per image are always enough (see
    [run_never_out_of_fuel]). *)
Definition run (capacity : nat) (o : oracle) (imagelist : list Image)
  : outcome locals * world :=
  do_inference o (2 * length imagelist) imagelist (new_pipeline capacity).

(** ** Reading a trace *)

Definition shown (t : list event) : list Frame :=
  omap (λ e, match e with Showarray f => Some f | _ => None end) t.

Definition submitted (t : list event) : list (Image * nat * Image) :=
  omap (λ e, match e with
             | Submit_data x i m => Some (x, i, m)
             | _ => None
             end) t.

Definition finished (t : list event) : list nat :=
  omap (λ e, match e with Finished i => Some i | _ => None end) t.

Definition is_driver_event (e : event) : bool :=
  match e with Finished _ => false | _ => true end.

(** What the driver itself did: the trace without the engine's own
    progress. *)
Definition driver_view (t : list event) : list event :=
  filter (λ e, is_driver_event e = true) t.

(** ** What may happen after what

    [in_turn prev e]: the driver may do [e] when the last thing it did was
    [prev].  This is the control flow of [do_inference] read as a grammar of
    its steps. *)

Definition in_turn (prev : option event) (e : event) : Prop :=
  match e with
  | Get_result _ _ =>
      match prev with
      | None | Some (Submit_data _ _ _) | Some Await_any
      | Some (Has_completed_request true) => True
      | _ => False
      end
  | Showarray f => ∃ i m, prev = Some (Get_result i (Some (f, m)))
  | Is_ready _ =>
      match prev with
      | Some (Get_result _ None) | Some (Showarray _) => True
      | _ => False
      end
  | Submit_data _ _ _ => prev = Some (Is_ready true)
  | Await_any => prev = Some (Is_ready false)
  | Await_all =>
      match prev with
      | None | Some (Submit_data _ _ _) => True
      | _ => False
      end
  | Has_completed_request _ =>
      match prev with
      | Some Await_all | Some (Showarray _) => True
      | _ => False
      end
  | Print_total _ => prev = Some (Has_completed_request false)
  | Raised _ | Finished _ => True
  end.

(** [ok_event capacity p e] says that event [e] is in order after the
    history [p]. *)

Definition ok_event (capacity : nat) (p : list event) (e : event) : Prop :=
  (∀ x, last p ≠ Some (Raised x)) ∧
  in_turn (last (driver_view p)) e ∧
  match e with
  | Get_result id _ => id = length (shown p)
  | Is_ready _ | Await_any => Await_all ∉ p
  | Submit_data x i m =>
      i = length (submitted p) ∧
      length (submitted p) < length (finished p) + capacity ∧
      Await_all ∉ p
  | Showarray f =>
      length (shown p) < length (finished p) ∧
      ∃ m, last p = Some (Get_result (length (shown p)) (Some (f, m)))
  | Finished id => length (finished p) < length (submitted p)
  | _ => True
  end.

Definition trace_ok (capacity : nat) (t : list event) : Prop :=
  ∀ p e, (p ++ [e]) `prefix_of` t → ok_event capacity p e.

(** ** Invariants of a run

    [mk_submission i x] is what the driver submits for the image [x] at
    index [i]: the image, tagged [i], with the image again as metadata. *)

Definition mk_submission (i : nat) (x : Image) : Image * nat * Image :=
  (x, i, x).

(** What holds of the trace of every run, finished or not. *)
Definition trace_fine (capacity : nat) (imagelist : list Image)
    (t : list event) : Prop :=
  trace_ok capacity t ∧
  shown t = infer <$> take (length (shown t)) imagelist ∧
  submitted t = imap mk_submission (take (length (submitted t)) imagelist).

(** The state between two steps of the driver: the ids [fetched..n-1] are
    with the engine (in flight or completed), [n] images have been
    submitted, [s] frames shown, and at most [k] requests are in flight.
    [main] tells whether the driver is still before [await_all], [prev] is
    the last thing the driver did. *)
Record Inv (capacity : nat) (imagelist : list Image)
    (k n fetched s : nat) (main : bool) (prev : option event) (w : world)
  : Prop := {
  inv_capacity : num_requests w = capacity;
  inv_room : length (busy w) ≤ k ∧ k ≤ capacity;
  inv_nodup : NoDup (req_id <$> busy w);
  inv_disjoint :
    ∀ q, q ∈ busy w → pending_set w !! req_id q = None;
  inv_ids :
    ∀ id, fetched ≤ id < n ↔
          id ∈ (req_id <$> busy w) ∨
          is_Some (pending_set w !! id);
  inv_busy :
    ∀ q, q ∈ busy w →
         imagelist !! req_id q = Some (req_inputs q) ∧
         req_meta q = req_inputs q;
  inv_completed :
    ∀ id f m, pending_set w !! id = Some (f, m) →
              imagelist !! id = Some m ∧ f = infer m;
  inv_counters : s ≤ fetched ≤ n ∧ n ≤ length imagelist - 1;
  inv_shown : shown (trace w) = infer <$> take s imagelist;
  inv_submitted : submitted (trace w) = imap mk_submission (take n imagelist);
  inv_finished : length (finished (trace w)) + length (busy w) = n;
  inv_trace : trace_ok capacity (trace w);
  inv_phase : main = true → Await_all ∉ trace w;
  inv_prev : last (driver_view (trace w)) = prev;
  inv_last : ∀ x, last (trace w) ≠ Some (Raised x)
}.

(** What the driver did last when it tests the condition of the first
    loop with [n] images submitted. *)
Definition loop_head (imagelist : list Image) (n : nat)
    (prev : option event) : Prop :=
  match prev with
  | None | Some (Submit_data _ _ _) => True
  | Some Await_any => n < length imagelist - 1
  | _ => False
  end.

(** What holds when a computation ends without a value.  [late] is the
    only excuse for running out of fuel. *)
Definition final {X} (o : oracle) (capacity : nat) (imagelist : list Image)
    (late : Prop) (out : outcome X) (w : world) : Prop :=
  trace_fine capacity imagelist (trace w) ∧
  match out with
  | Return _ => False
  | Raise x =>
      ∃ e t, x = EngineError e ∧ fate_of o t = Fails e ∧
             last (trace w) = Some (Raised e)
  | Hang =>
      (∀ x, last (trace w) ≠ Some (Raised x)) ∧
      ((∃ t, fate_of o t = Stalls) ∨ capacity = 0)
  | OutOfFuel => (∀ x, last (trace w) ≠ Some (Raised x)) ∧ late
  end.

Definition hoare {X} (o : oracle) (capacity : nat) (imagelist : list Image)
    (late : Prop) (P : world → Prop) (m : M X) (Q : X → world → Prop)
  : Prop :=
  ∀ w, P w →
       match m w with
       | (Return x, w') => Q x w'
       | (out, w') => final o capacity imagelist late out w'
       end.

(** The number of iterations the first loop still needs. *)
Definition main_measure (capacity : nat) (imagelist : list Image)
    (k n : nat) : nat :=
  2 * (length imagelist - 1 - n) - (if decide (k < capacity) then 1 else 0).

(** An engine that neither raises nor stalls. *)
Definition healthy (o : oracle) : Prop := ∀ t, fate_of o t = Normal.

(** ** Vocabulary of the properties *)

(** [always Q t]: [Q] holds of the history at every point of [t];
    [each_event Q t]: [Q p e] holds of every event [e] of [t] and the
    history [p] before it. *)
Definition always (Q : list event → Prop) (t : list event) : Prop :=
  ∀ p, p `prefix_of` t → Q p.

Definition each_event (Q : list event → event → Prop) (t : list event)
  : Prop :=
  ∀ p e, (p ++ [e]) `prefix_of` t → Q p e.

(** Submitted and not yet shown; submitted and not yet finished by the
    engine; finished and not yet shown. *)
Definition outstanding (p : list event) : nat :=
  length (submitted p) - length (shown p).

Definition in_flight (p : list event) : nat :=
  length (submitted p) - length (finished p).

Definition buffered (p : list event) : nat :=
  length (finished p) - length (shown p).

Definition submits_when_ready (p : list event) (e : event) : Prop :=
  match e with
  | Submit_data _ _ _ => last (driver_view p) = Some (Is_ready true)
  | _ => True
  end.

(** Every step of the driver is one its control flow allows after the step
    before. *)
Definition steps_in_turn (p : list event) (e : event) : Prop :=
  in_turn (last (driver_view p)) e.

Definition fetch_then_show (p : list event) (e : event) : Prop :=
  match e with
  | Showarray f =>
      ∃ m, last p = Some (Get_result (length (shown p)) (Some (f, m)))
  | _ => True
  end.

Definition quiet_after_await_all (p : list event) (e : event) : Prop :=
  match e with
  | Await_any | Is_ready _ | Submit_data _ _ _ => Await_all ∉ p
  | _ => True
  end.

Definition cursor_events (p : list event) (e : event) : Prop :=
  match e with
  | Get_result id _ => id = length (shown p)
  | Submit_data _ i _ => i = length (submitted p)
  | _ => True
  end.

Definition nothing_after_raise (p : list event) (e : event) : Prop :=
  ∀ x, last p ≠ Some (Raised x).

(** The reading of "a buffered run is delivered in one pass" that asks
    least of the driver: when a frame is shown and the completion of the
    next one was already there, the driver does not wait for the engine
    before showing that next one. *)
Definition drains_in_one_pass (t : list event) : Prop :=
  ∀ p f mid f' rest,
    t = p ++ [Showarray f] ++ mid ++ [Showarray f'] ++ rest →
    shown mid = [] →
    (length (shown p) + 1) ∈ finished p →
    Await_any ∉ mid.

Definition raises {X} (r : outcome X * world) : Prop := ∃ e, r.1 = Raise e.

(** A submission is made when fewer than [capacity] requests are in
    flight. *)
Definition room_at_submission (capacity : nat) (p : list event) (e : event)
  : Prop :=
  match e with
  | Submit_data _ _ _ => in_flight p < capacity
  | _ => True
  end.

(** The second loop and the final [print] come after [await_all] only. *)
Definition drain_after_await_all (p : list event) (e : event) : Prop :=
  match e with
  | Has_completed_request _ | Print_total _ => Await_all ∈ p
  | _ => True
  end.

(** When [is_ready] has returned [False] the driver does one thing next:
    it calls [await_any], whatever results there are (the engine's own
    progress and its errors apart). *)
Definition waits_when_not_ready (p : list event) (e : event) : Prop :=
  last (driver_view p) = Some (Is_ready false) →
  match e with
  | Await_any | Raised _ | Finished _ => True
  | _ => False
  end.

(** Before [await_all], a [get_result] is the first step of the driver or
    follows a submission or an [await_any]: never a frame. *)
Definition fetch_follows_submit_or_wait (p : list event) (e : event)
  : Prop :=
  match e with
  | Get_result _ _ =>
      Await_all ∉ p →
      match last (driver_view p) with
      | None | Some (Submit_data _ _ _) | Some Await_any => True
      | _ => False
      end
  | _ => True
  end.

(** The reading of "an error surfaces after the results before it are
    deliverable" that asks least of the driver: when the run raises, the
    results the engine had finished have been shown. *)
Definition delivers_finished_before_raise {X} (r : outcome X * world)
  : Prop :=
  raises r → length (finished (trace r.2)) ≤ length (shown (trace r.2)).

(** [emits ok m]: whatever [m] does, it only adds events to the trace, and
    only events in [ok]. *)
Definition emits {X} (ok : event → Prop) (m : M X) : Prop :=
  ∀ w, ∃ es, trace (m w).2 = trace w ++ es ∧ Forall ok es.

(** The events of the first loop and of [await_all]. *)
Definition not_late (e : event) : Prop :=
  match e with
  | Has_completed_request _ | Print_total _ => False
  | _ => True
  end.

(** ** Some engines *)

(** Finishes a request only when the driver waits for it. *)
Definition calm : oracle := Oracle (λ _ _, false) (λ _, 0) (λ _, Normal).

(** Finishes request [i] just before call [t] for every [(t, i)] listed. *)
Definition finishing (sched : list (nat * nat)) : oracle :=
  Oracle (λ t i, bool_decide ((t, i) ∈ sched)) (λ _, 0) (λ _, Normal).

(** Raises [e] at call [t0]. *)
Definition failing_at (t0 : nat) (e : Err) : oracle :=
  Oracle (λ _ _, false) (λ _, 0)
         (λ t, if decide (t = t0) then Fails e else Normal).

(** Finishes as [finishing sched] does and raises [e] at call [t0]. *)
Definition finishing_then_failing (sched : list (nat * nat)) (t0 : nat)
    (e : Err) : oracle :=
  Oracle (λ t i, bool_decide ((t, i) ∈ sched)) (λ _, 0)
         (λ t, if decide (t = t0) then Fails e else Normal).

(** Finishes every request at once, except request 0, which it finishes
    only when the driver waits for it. *)
Definition slow_first : oracle :=
  Oracle (λ _ i, bool_decide (i ≠ 0)) (λ _, 0) (λ _, Normal).

(** ** Calls that do not wait

    [quiet w]: the driver has not called [await_any] so far.
    [room capacity n w]: moreover the engine has [capacity] infer requests,
    at most [n] of them busy.  [no_wait P m Q]: from a world in [P] the
    computation [m] returns in [Q], or ends otherwise in a quiet world. *)

Definition quiet (w : world) : Prop := Await_any ∉ trace w.

Definition room (capacity n : nat) (w : world) : Prop :=
  num_requests w = capacity ∧ length (busy w) ≤ n ∧ quiet w.

Definition no_wait {X} (P : world → Prop) (m : M X)
    (Q : X → world → Prop) : Prop :=
  ∀ w, P w →
       match m w with
       | (Return x, w') => Q x w'
       | (_, w') => quiet w'
       end.

(** ** The display of the notebook

    [showarray] with its [display_handle].  The cell output is the list of
    its display areas in the order they were created, each with the picture
    it holds; a display handle is the position of its area. *)

Section Display.

Context {Jpeg : Type}.

(** [cv2.imencode(ext=".jpeg", img=frame)], then [frame.tobytes()]. *)
Variable imencode : Frame → Jpeg.

(** [display(Image(data=...), display_id=True)]: a new display area, and
    the handle of it. *)
Definition display (picture : Jpeg) (areas : list Jpeg) : nat * list Jpeg :=
  (length areas, areas ++ [picture]).

(** [display_handle.update(Image(data=...))]; a handle is always the
    position of an area that exists. *)
Definition update (display_handle : nat) (picture : Jpeg)
    (areas : list Jpeg) : list Jpeg :=
  <[display_handle := picture]> areas.

(** [showarray(frame, display_handle)], with the display areas before and
    after; the result is the handle it returns. *)
Definition showarray_handle (frame : Frame) (display_handle : option nat)
    (areas : list Jpeg) : nat * list Jpeg :=
  let picture := imencode frame in
  match display_handle with
  | None => display picture areas
  | Some display_handle => (display_handle, update display_handle picture areas)
  end.

(** The variable [display_handle] of [do_inference] and the display areas
    after the frames [frames] have been shown: [display_handle = None] at
    first, then [display_handle = showarray(result, display_handle)] for
    each frame. *)
Definition show_all (frames : list Frame) (areas : list Jpeg)
  : option nat * list Jpeg :=
  fold_left (λ '(display_handle, areas) result,
               let '(display_handle, areas) :=
                 showarray_handle result display_handle areas in
               (Some display_handle, areas))
            frames (None, areas).

End Display.

(** ** The dataset: [KitsDataset]

    The class of the quantization part of the notebook.  [__init__] lists
    the mask files under [basedir] and keeps those of the training or of the
    validation patients. *)

Section Dataset.

Context {Transforms : Type}.

(** [glob.glob(pattern)]: the files that match, as the file system has
    them. *)
Variable glob_glob : string → list string.

(** [Path(mask).parents[1].name]: the name of the patient's directory
    [case_...], two levels above a mask file the glob finds. *)
Variable case_of : string → string.

(** What [random.shuffle(masks)] leaves in [masks]. *)
Variable shuffle : list string → list string.

Inductive exception := ValueError (message : string).

Record KitsDataset := Build_KitsDataset {
  valpatients : list nat;
  basedir : string;
  dataset_type : string;
  dataset : list string;
  transforms : Transforms
}.

(** The order of [str] in Python, which [sorted] uses. *)
Definition str_le (s1 s2 : string) : Prop := String.leb s1 s2 = true.

#[global] Instance str_le_dec : RelDecision str_le :=
  λ s1 s2, decide (String.leb s1 s2 = true).

(** [sorted(l)] for a list of [str]: its ascending rearrangement. *)
Definition sorted (l : list string) : list string := merge_sort str_le l.

Fixpoint zeros (k : nat) : string :=
  match k with
  | 0 => ""
  | S k => "0" +:+ zeros k
  end.

(** [f"{i:05d}"]. *)
Definition format_05d (i : nat) : string :=
  let digits := pretty i in
  zeros (5 - String.length digits) +:+ digits.

Definition the_valpatients : list nat :=
  [11; 15; 16; 49; 50; 79; 81; 89; 106; 108; 112; 126; 129; 133;
   141; 166; 169; 170; 192; 202; 204].

(** [[f"case_{i:05d}" for i in self.valpatients]]. *)
Definition valcases : list string :=
  (λ i, "case_" +:+ format_05d i) <$> the_valpatients.

(** [sorted(glob.glob(f"{basedir}/case_*/segmentation_frames/*png"))]. *)
Definition allmasks (basedir : string) : list string :=
  sorted (glob_glob (basedir +:+ "/case_*/segmentation_frames/*png")).

(** [KitsDataset(basedir, dataset_type, transforms)]: the exception raised,
    or the new object and the line printed. *)
Definition KitsDataset_init (basedir dataset_type : string)
    (transforms : Transforms) : exception + KitsDataset * string :=
  let allmasks := allmasks basedir in
  if bool_decide (length allmasks = 0) then
    inl (ValueError ("basedir: '" +:+ basedir +:+
                     "' does not contain data for type '" +:+
                     dataset_type +:+ "'"))
  else
    let selected :=
      if bool_decide (dataset_type = "train") then
        inr (filter (λ mask, case_of mask ∉ valcases) allmasks)
      else if bool_decide (dataset_type = "val") then
        inr (filter (λ mask, case_of mask ∈ valcases) allmasks)
      else inl (ValueError "Please choose train or val dataset split") in
    match selected with
    | inl e => inl e
    | inr masks =>
        let masks :=
          if bool_decide (dataset_type = "train") then shuffle masks
          else masks in
        inr (Build_KitsDataset the_valpatients basedir dataset_type masks
                               transforms,
             "Created " +:+ dataset_type +:+ " dataset with " +:+
             pretty (length masks) +:+
             " items. Base directory for data: " +:+ basedir)
    end.

(** [__len__]. *)
Definition KitsDataset_len (self : KitsDataset) : nat :=
  length (dataset self).

End Dataset.

(** ** Some directories

    A directory [d] with two mask files of patient 16, who is a validation
    patient, and one of patient 17, who is not; and a directory with the
    files of patient 16 only. *)

Definition three_masks (pattern : string) : list string :=
  ["d/case_00017/segmentation_frames/1.png";
   "d/case_00016/segmentation_frames/2.png";
   "d/case_00016/segmentation_frames/1.png"].

Definition val_masks_only (pattern : string) : list string :=
  ["d/case_00016/segmentation_frames/2.png";
   "d/case_00016/segmentation_frames/1.png"].

(** The name of the patient's directory in a path [d/case_.../...]. *)
Definition case_in_d (mask : string) : string := String.substring 2 10 mask.

(** ** Elementary facts about traces *)

Lemma shown_app t1 t2 : shown (t1 ++ t2) = shown t1 ++ shown t2.
Proof. apply omap_app. Qed.

Lemma submitted_app t1 t2 :
  submitted (t1 ++ t2) = submitted t1 ++ submitted t2.
Proof. apply omap_app. Qed.

Lemma finished_app t1 t2 : finished (t1 ++ t2) = finished t1 ++ finished t2.
Proof. apply omap_app. Qed.

Lemma driver_view_app t1 t2 :
  driver_view (t1 ++ t2) = driver_view t1 ++ driver_view t2.
Proof. apply filter_app. Qed.

Lemma driver_view_snoc t e :
  is_driver_event e = true → driver_view (t ++ [e]) = driver_view t ++ [e].
Proof.
  intros He. rewrite driver_view_app. f_equal.
  unfold driver_view. by rewrite filter_cons_True.
Qed.

Lemma shown_finished (ids : list nat) : shown (Finished <$> ids) = [].
Proof. induction ids; done. Qed.

Lemma submitted_finished (ids : list nat) : submitted (Finished <$> ids) = [].
Proof. induction ids; done. Qed.

Lemma finished_finished (ids : list nat) : finished (Finished <$> ids) = ids.
Proof. induction ids as [|i ids IH]; [done|]. simpl. f_equal. apply IH. Qed.

Lemma driver_view_finished (ids : list nat) :
  driver_view (Finished <$> ids) = [].
Proof. induction ids; done. Qed.

Lemma prefix_snoc_inv {X} (p t : list X) (e e' : X) :
  (p ++ [e]) `prefix_of` (t ++ [e']) →
  (p ++ [e]) `prefix_of` t ∨ (p = t ∧ e = e').
Proof.
  intros [k Hk]. revert Hk. destruct k as [|x k _] using rev_ind; intros Hk.
  - rewrite app_nil_r in Hk. apply app_inj_tail in Hk as [-> ->]. by right.
  - left. rewrite !app_assoc in Hk. apply app_inj_tail in Hk as [-> _].
    by apply prefix_app_r.
Qed.

Lemma trace_ok_nil capacity : trace_ok capacity [].
Proof.
  intros p e [k Hk]. destruct p; discriminate.
Qed.

Lemma trace_ok_snoc capacity t e :
  trace_ok capacity t → ok_event capacity t e → trace_ok capacity (t ++ [e]).
Proof.
  intros Ht He p e' Hp.
  apply prefix_snoc_inv in Hp as [Hp|[-> ->]]; [by apply Ht|done].
Qed.

Lemma trace_ok_prefix capacity t p :
  trace_ok capacity t → p `prefix_of` t → trace_ok capacity p.
Proof. intros Ht Hp q e Hq. apply Ht. by etrans. Qed.

Lemma last_finished_not_raised (t : list event) (ids : list nat) :
  (∀ x, last t ≠ Some (Raised x)) →
  ∀ x, last (t ++ (Finished <$> ids)) ≠ Some (Raised x).
Proof.
  intros Ht x. destruct ids as [|i ids _] using rev_ind.
  - rewrite app_nil_r. apply Ht.
  - rewrite fmap_app, app_assoc. simpl. by rewrite last_snoc.
Qed.

Lemma trace_ok_finished capacity t (ids : list nat) :
  trace_ok capacity t →
  (∀ x, last t ≠ Some (Raised x)) →
  length (finished t) + length ids ≤ length (submitted t) →
  trace_ok capacity (t ++ (Finished <$> ids)).
Proof.
  intros Ht Hr. induction ids as [|i ids IH] using rev_ind; intros Hlen.
  - by rewrite app_nil_r.
  - rewrite length_app in Hlen. simpl in Hlen.
    rewrite fmap_app, app_assoc. simpl.
    apply trace_ok_snoc; [apply IH; lia|].
    split; [by apply last_finished_not_raised|]. split; [done|].
    rewrite finished_app, submitted_app, finished_finished,
      submitted_finished, app_nil_r, length_app. lia.
Qed.

(** ** The results held for the driver *)

Lemma lookup_foldr_complete_None c done i :
  foldr complete c done !! i = None ↔
  c !! i = None ∧ i ∉ (req_id <$> done).
Proof.
  induction done as [|q done IH]; simpl.
  - split; [intros ?; split; [done|apply not_elem_of_nil]|tauto].
  - unfold complete at 1. rewrite lookup_insert_None, IH, not_elem_of_cons.
    intuition congruence.
Qed.

Lemma lookup_foldr_complete_Some c done i v :
  foldr complete c done !! i = Some v →
  c !! i = Some v ∨
  ∃ q, q ∈ done ∧ req_id q = i ∧ v = (infer (req_inputs q), req_meta q).
Proof.
  induction done as [|q done IH]; simpl; [by left|].
  unfold complete at 1. rewrite lookup_insert_Some.
  intros [[<- <-]|[Hne Hi]].
  - right. exists q. split; [apply elem_of_cons; by left|done].
  - destruct (IH Hi) as [?|(q' & ? & ? & ?)]; [by left|].
    right. exists q'. split; [apply elem_of_cons; by right|done].
Qed.

Lemma lookup_foldr_complete_is_Some c done i :
  is_Some (foldr complete c done !! i) ↔
  is_Some (c !! i) ∨ i ∈ (req_id <$> done).
Proof.
  rewrite <-!not_eq_None_Some, lookup_foldr_complete_None.
  destruct (decide (i ∈ req_id <$> done)); [|tauto].
  split; [by right|tauto].
Qed.

(** Distinct numbers from an interval are no more than the interval holds. *)
Lemma interval_room (ids : list nat) (a b : nat) :
  NoDup ids → (∀ i, i ∈ ids → a ≤ i < b) → length ids ≤ b - a.
Proof.
  intros Hnd Hin.
  replace (b - a) with (length (seq a (b - a))) by apply length_seq.
  apply submseteq_length, NoDup_submseteq; [done|].
  intros i Hi. apply elem_of_seq. specialize (Hin i Hi). lia.
Qed.

Section Run.

Variables (o : oracle) (capacity : nat) (imagelist : list Image).

Local Abbreviation Inv' := (Inv capacity imagelist).
Local Abbreviation hoare' := (hoare o capacity imagelist).

(** ** Rules of the program logic *)

Lemma hoare_consequence {X} late late' (P P' : world → Prop) (m : M X)
    (Q Q' : X → world → Prop) :
  hoare' late P m Q → (late → late') → (∀ w, P' w → P w) →
  (∀ x w, Q x w → Q' x w) → hoare' late' P' m Q'.
Proof.
  intros Hm Hl HP HQ w Hw. specialize (Hm w (HP w Hw)).
  destruct (m w) as [[x| | |] w']; [by apply HQ|done..|].
  destruct Hm as (? & ? & ?). split_and!; auto.
Qed.

Lemma Inv_trace_fine {k n fetched s main prev w} :
  Inv' k n fetched s main prev w → trace_fine capacity imagelist (trace w).
Proof.
  intros [].
  split_and!; [done|..].
  - rewrite inv_shown0 at 2. rewrite length_fmap, length_take.
    rewrite inv_shown0. do 2 f_equal. lia.
  - rewrite inv_submitted0 at 2. rewrite length_imap, length_take.
    rewrite inv_submitted0. do 2 f_equal. lia.
Qed.

(** ** The engine's own progress *)

Lemma trace_retire done rest w :
  trace (retire done rest w) = trace w ++ (Finished <$> (req_id <$> done)).
Proof. simpl. by rewrite list_fmap_compose. Qed.

Lemma length_submitted_Inv {k n fetched s main prev w} :
  Inv' k n fetched s main prev w → length (submitted (trace w)) = n.
Proof.
  intros []. rewrite inv_submitted0, length_imap, length_take. lia.
Qed.

Lemma length_shown_Inv {k n fetched s main prev w} :
  Inv' k n fetched s main prev w → length (shown (trace w)) = s.
Proof.
  intros []. rewrite inv_shown0, length_fmap, length_take. lia.
Qed.

Lemma Inv_retire k k' n fetched s main prev done rest w :
  Inv' k n fetched s main prev w →
  done ++ rest ≡ₚ busy w →
  length rest ≤ k' ≤ capacity →
  Inv' k' n fetched s main prev (retire done rest w).
Proof.
  intros HI Hperm Hk'. pose proof (length_submitted_Inv HI) as Hn.
  destruct HI.
  assert (Hmem : ∀ q, q ∈ busy w ↔ q ∈ done ∨ q ∈ rest).
  { intros q. by rewrite <-Hperm, elem_of_app. }
  assert (Hids : ∀ i, i ∈ (req_id <$> busy w) ↔
                      i ∈ (req_id <$> done) ∨ i ∈ (req_id <$> rest)).
  { intros i. by rewrite <-Hperm, fmap_app, elem_of_app. }
  assert (Hnd : NoDup ((req_id <$> done) ++ (req_id <$> rest))).
  { by rewrite <-fmap_app, Hperm. }
  apply NoDup_app in Hnd as (Hnd1 & Hnd2 & Hnd3).
  assert (Hlen : length done + length rest = length (busy w)).
  { by rewrite <-Hperm, length_app. }
  constructor; try rewrite trace_retire; simpl; try done.
  - intros q Hq. apply lookup_foldr_complete_None. split.
    + apply inv_disjoint0, Hmem. by right.
    + intros Hin. apply (Hnd2 _ Hin). by apply list_elem_of_fmap_2.
  - intros id. rewrite inv_ids0, lookup_foldr_complete_is_Some, Hids. tauto.
  - intros q Hq. apply inv_busy0, Hmem. by right.
  - intros id f m Hm.
    apply lookup_foldr_complete_Some in Hm as [Hm|(q & Hq & <- & Heq)].
    + by apply inv_completed0.
    + injection Heq as -> ->.
      destruct (inv_busy0 q) as [H1 H2]; [apply Hmem; by left|].
      by rewrite H2.
  - by rewrite shown_app, shown_finished, app_nil_r.
  - by rewrite submitted_app, submitted_finished, app_nil_r.
  - rewrite finished_app, finished_finished, length_app, length_fmap. lia.
  - apply trace_ok_finished; [done..|]. rewrite length_fmap. lia.
  - intros Hmain. rewrite elem_of_app. intros [?|Hin]; [by apply inv_phase0|].
    apply list_elem_of_fmap in Hin as (? & ? & ?). done.
  - by rewrite driver_view_app, driver_view_finished, app_nil_r.
  - by apply last_finished_not_raised.
Qed.

Lemma Inv_tick k n fetched s main prev w :
  Inv' k n fetched s main prev w → Inv' k n fetched s main prev (tick w).
Proof. by intros []. Qed.

Lemma Inv_advance k n fetched s main prev w :
  Inv' k n fetched s main prev w →
  Inv' k n fetched s main prev (advance o w).
Proof.
  intros HI. apply Inv_tick, (Inv_retire k); [done|..].
  - apply filter_app_complement.
  - destruct HI as [_ [? ?]]. split; [|lia].
    etrans; [apply length_filter|done].
Qed.

(** ** One more event on the trace *)

Lemma trace_fine_snoc t e :
  trace_fine capacity imagelist t → ok_event capacity t e →
  shown [e] = [] → submitted [e] = [] →
  trace_fine capacity imagelist (t ++ [e]).
Proof.
  intros (Hok & Hsh & Hsub) He H1 H2. split_and!.
  - by apply trace_ok_snoc.
  - by rewrite shown_app, H1, app_nil_r.
  - by rewrite submitted_app, H2, app_nil_r.
Qed.

(** A step of the driver that neither submits nor shows. *)
Lemma Inv_log k n fetched s main main' prev e w :
  Inv' k n fetched s main prev w →
  in_turn prev e →
  match e with
  | Get_result id _ => id = s
  | Is_ready _ | Await_any => main = true
  | Await_all => main' = false
  | Has_completed_request _ | Print_total _ => True
  | _ => False
  end →
  (main' = true → main = true) →
  Inv' k n fetched s main' (Some e) (log e w).
Proof.
  intros HI Hturn He Hm. pose proof (length_shown_Inv HI) as Hs.
  destruct HI.
  assert (Hev : ok_event capacity (trace w) e).
  { split; [done|]. split; [by rewrite inv_prev0|].
    destruct e; try done; [congruence|by apply inv_phase0..]. }
  constructor; simpl; try done.
  - rewrite shown_app. destruct e; try done; by rewrite app_nil_r.
  - rewrite submitted_app. destruct e; try done; by rewrite app_nil_r.
  - rewrite finished_app. destruct e; try done; by rewrite app_nil_r.
  - by apply trace_ok_snoc.
  - intros Hmain. rewrite elem_of_app, list_elem_of_singleton.
    intros [?| <-]; [by apply (inv_phase0 (Hm Hmain))|].
    simpl in He. congruence.
  - rewrite driver_view_snoc, last_snoc; [done|]. by destruct e.
  - intros x. rewrite last_snoc. intros [= ->]. done.
Qed.

Lemma hoare_engine_call {X} late k n fetched s main prev (P P' : world → Prop)
    (serve : nat → fate → M X) Q :
  (∀ w, P w → Inv' k n fetched s main prev w) →
  (∀ w, P w → P' (advance o w)) →
  (∀ t w, P' w → (∀ e, fate_of o t ≠ Fails e) →
          match serve t (fate_of o t) w with
          | (Return x, w') => Q x w'
          | (out, w') => final o capacity imagelist late out w'
          end) →
  hoare' late P (engine_call o serve) Q.
Proof.
  intros HI HP Hs w Hw. unfold engine_call.
  pose proof (Hs (calls w) (advance o w) (HP w Hw)) as Hs'.
  destruct (fate_of o (calls w)) as [|e|] eqn:Hf; [by apply Hs'| |by apply Hs'].
  specialize (HI w Hw). split; simpl.
  - apply trace_fine_snoc; [by eapply Inv_trace_fine| |done..].
    split; [by destruct HI|done].
  - exists e, (calls w). by rewrite last_snoc.
Qed.

(** ** The calls of the driver, one by one *)

Lemma Inv_fetch k n s main prev w f m :
  Inv' k n s s main prev w →
  pending_set w !! s = Some (f, m) →
  Inv' k n (s + 1) s main prev
       (World (num_requests w) (busy w)
              (delete s (pending_set w)) (calls w) (trace w)) ∧
  imagelist !! s = Some m ∧ f = infer m.
Proof.
  intros [] Hc. destruct (inv_completed0 _ _ _ Hc) as [Hm Hf].
  assert (Hs : s < n).
  { apply (inv_ids0 s). right. by eexists. }
  assert (Hnot : s ∉ (req_id <$> busy w)).
  { intros (q & -> & Hq)%list_elem_of_fmap.
    by rewrite (inv_disjoint0 q Hq) in Hc. }
  split; [|done]. constructor; simpl; try done.
  - intros q Hq. apply lookup_delete_None. right. by apply inv_disjoint0.
  - intros id. rewrite lookup_delete_is_Some. split.
    + intros Hid. destruct (proj1 (inv_ids0 id)) as [?|?]; [lia|by left|].
      right. split; [lia|done].
    + intros [Hid|[Hne Hid]].
      * assert (s ≤ id < n) by (apply inv_ids0; by left).
        assert (id ≠ s) by (by intros ->). lia.
      * assert (s ≤ id < n) by (apply inv_ids0; by right). lia.
  - intros id f' m' [_ Hid]%lookup_delete_Some. by apply inv_completed0.
  - lia.
Qed.

Lemma hoare_get_result late k n s main prev :
  in_turn prev (Get_result s None) →
  hoare' late (Inv' k n s s main prev) (get_result o s)
    (λ results w',
       match results with
       | Some (f, m) =>
           Inv' k n (s + 1) s main (Some (Get_result s (Some (f, m)))) w' ∧
           imagelist !! s = Some m ∧ f = infer m ∧
           last (trace w') = Some (Get_result s (Some (f, m)))
       | None =>
           Inv' k n s s main (Some (Get_result s None)) w' ∧
           (s < n → 0 < length (busy w'))
       end).
Proof.
  intros Hturn.
  eapply hoare_engine_call with (P' := Inv' k n s s main prev);
    [done|apply Inv_advance|].
  intros t w HI _. simpl.
  destruct (pending_set w !! s) as [[f m]|] eqn:Hc.
  - destruct (Inv_fetch _ _ _ _ _ _ _ _ HI Hc) as (HI' & Hm & Hf).
    split_and!; [|done..|by simpl; rewrite last_snoc].
    by eapply Inv_log; [exact HI'|..].
  - rewrite delete_id by done. split.
    + destruct w. by eapply Inv_log; [exact HI|..].
    + simpl. intros Hs. destruct HI.
      destruct (proj1 (inv_ids0 s)) as [Hin|[? ?]]; [lia| |congruence].
      destruct (busy w); [by apply elem_of_nil in Hin|simpl; lia].
Qed.

Lemma hoare_showarray late k n s main f m :
  hoare' late
    (λ w, Inv' k n (s + 1) s main (Some (Get_result s (Some (f, m)))) w ∧
          imagelist !! s = Some m ∧ f = infer m ∧
          last (trace w) = Some (Get_result s (Some (f, m))))
    (showarray f)
    (λ _ w', Inv' k n (s + 1) (s + 1) main (Some (Showarray f)) w').
Proof.
  intros w (HI & Hm & Hf & Hlast). simpl.
  pose proof (length_shown_Inv HI) as Hs. destruct HI.
  assert (Hroom : length (busy w) ≤ n - (s + 1)).
  { rewrite <-(length_fmap req_id). apply interval_room; [done|].
    intros i Hi. apply inv_ids0. by left. }
  constructor; simpl; try done.
  - lia.
  - rewrite shown_app, inv_shown0, Nat.add_1_r, (take_S_r _ _ _ Hm), fmap_app.
    simpl. by rewrite Hf.
  - by rewrite submitted_app, app_nil_r.
  - by rewrite finished_app, app_nil_r.
  - apply trace_ok_snoc; [done|]. split; [done|]. split.
    + rewrite inv_prev0. by exists s, m.
    + rewrite Hs. split; [lia|]. by exists m.
  - intros Hmain. rewrite elem_of_app, list_elem_of_singleton.
    intros [?|?]; [by apply inv_phase0|done].
  - by rewrite driver_view_snoc, last_snoc.
  - intros x. by rewrite last_snoc.
Qed.

Lemma Inv_room_le k k' n fetched s main prev w :
  Inv' k n fetched s main prev w → length (busy w) ≤ k' ≤ capacity →
  Inv' k' n fetched s main prev w.
Proof. intros [] ?. by constructor. Qed.

Lemma hoare_is_ready late k n s prev :
  in_turn prev (Is_ready true) →
  hoare' late (Inv' k n s s true prev) (is_ready o)
    (λ ready w',
       if ready then
         0 < capacity ∧
         Inv' (capacity - 1) n s s true (Some (Is_ready true)) w'
       else k = capacity ∧ Inv' capacity n s s true (Some (Is_ready false)) w').
Proof.
  intros Hturn.
  eapply hoare_engine_call with (P' := Inv' k n s s true prev);
    [done|apply Inv_advance|].
  intros t w HI _. simpl. unfold has_capacity.
  assert (HI' : ∀ r, Inv' k n s s true (Some (Is_ready r)) (log (Is_ready r) w)).
  { intros r. by eapply Inv_log; [exact HI|..]. }
  assert (Hk : length (busy w) ≤ k ∧ k ≤ capacity) by (by destruct HI).
  assert (Hc : num_requests w = capacity) by (by destruct HI).
  rewrite Hc. case_bool_decide as Hcap.
  - split; [lia|]. eapply Inv_room_le; [apply HI'|simpl; lia].
  - split; [lia|]. eapply Inv_room_le; [apply HI'|simpl; lia].
Qed.

Lemma hoare_submit_data late n s x :
  imagelist !! n = Some x → n < length imagelist - 1 →
  hoare' late
    (λ w, 0 < capacity ∧
          Inv' (capacity - 1) n s s true (Some (Is_ready true)) w)
    (submit_data o x n x)
    (λ _ w', Inv' capacity (n + 1) s s true (Some (Submit_data x n x)) w').
Proof.
  intros Hx Hn.
  eapply hoare_engine_call with
    (P' := λ w, 0 < capacity ∧
                Inv' (capacity - 1) n s s true (Some (Is_ready true)) w).
  { by intros w (_ & HI). }
  { intros w (? & HI). split; [done|by apply Inv_advance]. }
  intros t w (Hcap & HI) _. unfold has_capacity.
  pose proof (length_submitted_Inv HI) as Hsub. destruct HI.
  rewrite inv_capacity0, bool_decide_true by lia.
  assert (Hfresh : n ∉ (req_id <$> busy w)).
  { intros Hin. assert (s ≤ n < n) by (apply inv_ids0; by left). lia. }
  assert (Hnone : pending_set w !! n = None).
  { apply eq_None_not_Some. intros Hin.
    assert (s ≤ n < n) by (apply inv_ids0; by right). lia. }
  constructor; simpl; try done.
  - rewrite length_app. simpl. lia.
  - rewrite fmap_app. apply NoDup_app. split_and!; [done| |apply NoDup_singleton].
    intros i Hi ->%list_elem_of_singleton. done.
  - intros q [Hq| ->%list_elem_of_singleton]%elem_of_app; [by apply inv_disjoint0|done].
  - intros id. rewrite fmap_app, elem_of_app. simpl.
    rewrite list_elem_of_singleton.
    specialize (inv_ids0 id). destruct (decide (id = n)) as [->|].
    + split; [by intros _; left; right|lia].
    + split; [intros ?; (destruct (proj1 inv_ids0); [lia|tauto..])|].
      intros [[?|?]|?]; [|done|]; (destruct (proj2 inv_ids0); [tauto|lia]).
  - intros q [Hq| ->%list_elem_of_singleton]%elem_of_app; [by apply inv_busy0|done].
  - lia.
  - by rewrite shown_app, app_nil_r.
  - rewrite submitted_app, inv_submitted0, Nat.add_1_r, (take_S_r _ _ _ Hx).
    rewrite imap_app. simpl. rewrite length_take, Nat.add_0_r.
    by replace (n `min` length imagelist) with n by lia.
  - rewrite finished_app, app_nil_r, length_app. simpl. lia.
  - apply trace_ok_snoc; [done|].
    split; [done|]. split; [by rewrite inv_prev0|].
    rewrite Hsub. split_and!; [done|lia|by apply inv_phase0].
  - intros _. rewrite elem_of_app, list_elem_of_singleton.
    intros [?|?]; [by apply inv_phase0|done].
  - by rewrite driver_view_snoc, last_snoc.
  - intros e. by rewrite last_snoc.
Qed.

Lemma final_hang {X} late k n fetched s main prev w :
  Inv' k n fetched s main prev w →
  (∃ t, fate_of o t = Stalls) ∨ capacity = 0 →
  final o capacity imagelist late (@Hang X) w.
Proof.
  intros HI Hwhy. split; [by eapply Inv_trace_fine|].
  split; [by destruct HI|done].
Qed.

Lemma hoare_await_any late n s :
  hoare' late (Inv' capacity n s s true (Some (Is_ready false))) (await_any o)
    (λ _ w', 0 < capacity ∧ Inv' (capacity - 1) n s s true (Some Await_any) w').
Proof.
  eapply hoare_engine_call
    with (P' := Inv' capacity n s s true (Some (Is_ready false)));
    [done|apply Inv_advance|].
  intros t w HI Hfate. cbv zeta.
  assert (HI' : Inv' capacity n s s true (Some Await_any) (log Await_any w)).
  { by eapply Inv_log; [exact HI|..]. }
  assert (Hk : length (busy w) ≤ capacity) by (by destruct HI as [_ [? _]]).
  assert (Hc : num_requests w = capacity) by (by destruct HI).
  unfold has_capacity. simpl busy. simpl num_requests. rewrite Hc.
  case_bool_decide as Hcap.
  { split; [lia|]. eapply Inv_room_le; [exact HI'|simpl; lia]. }
  destruct (fate_of o t) as [|e|] eqn:Hf.
  - destruct (busy w !! (wakes o t `mod` length (busy w))) as [q|] eqn:Hq.
    + assert (0 < length (busy w)).
      { apply lookup_lt_Some in Hq. lia. }
      split; [lia|]. eapply Inv_retire; [exact HI'|..].
      * simpl. symmetry. by apply delete_Permutation.
      * rewrite length_delete by (by eexists). lia.
    + eapply final_hang; [exact HI'|]. right.
      apply lookup_ge_None in Hq.
      destruct (busy w) as [|q' l]; [simpl in *; lia|].
      pose proof (Nat.mod_upper_bound (wakes o t) (length (q' :: l))).
      simpl in *. lia.
  - by destruct (Hfate e).
  - eapply final_hang; [exact HI'|]. left. by exists t.
Qed.

Lemma hoare_await_all late k n s prev :
  in_turn prev Await_all →
  hoare' late (Inv' k n s s true prev) (await_all o)
    (λ _ w', Inv' 0 n s s false (Some Await_all) w').
Proof.
  intros Hturn.
  eapply hoare_engine_call with (P' := Inv' k n s s true prev);
    [done|apply Inv_advance|].
  intros t w HI Hfate. cbv zeta.
  assert (HI' : Inv' k n s s false (Some Await_all) (log Await_all w)).
  { by eapply Inv_log; [exact HI|..]. }
  simpl busy. destruct (busy w) as [|q l] eqn:Hb.
  { assert (Inv' 0 n s s false (Some Await_all) (log Await_all w)).
    { eapply Inv_room_le; [exact HI'|]. simpl. rewrite Hb. simpl. lia. }
    by destruct (fate_of o t). }
  destruct (fate_of o t) as [|e|] eqn:Hf.
  - eapply Inv_retire; [exact HI'|..]; simpl; [|lia].
    by rewrite Hb, app_nil_r.
  - by destruct (Hfate e).
  - eapply final_hang; [exact HI'|]. left. by exists t.
Qed.

Lemma hoare_has_completed_request late n s prev :
  in_turn prev (Has_completed_request true) →
  hoare' late (Inv' 0 n s s false prev) (has_completed_request o)
    (λ more w',
       Inv' 0 n s s false (Some (Has_completed_request more)) w' ∧
       (more = true ↔ s < n)).
Proof.
  intros Hturn.
  eapply hoare_engine_call with (P' := Inv' 0 n s s false prev);
    [done|apply Inv_advance|].
  intros t w HI _. cbv zeta. split.
  { by eapply Inv_log; [exact HI|..]. }
  destruct HI.
  assert (Hidle : busy w = []).
  { destruct (busy w); [done|simpl in *; lia]. }
  rewrite Hidle in inv_ids0.
  rewrite negb_true_iff, bool_decide_eq_false, map_size_empty_iff. split.
  - intros (id & x & Hx)%map_choose.
    assert (s ≤ id < n) by (apply inv_ids0; right; by eexists). lia.
  - intros Hs Hempty.
    destruct (proj1 (inv_ids0 s)) as [Hin|[x Hx]]; [lia| |].
    + by apply elem_of_nil in Hin.
    + by rewrite Hempty, lookup_empty in Hx.
Qed.

Lemma hoare_print_total late k n s main frames :
  hoare' late (Inv' k n s s main (Some (Has_completed_request false)))
    (print_total frames)
    (λ _ w', Inv' k n s s false (Some (Print_total frames)) w').
Proof. intros w HI. simpl. by eapply Inv_log; [exact HI|..]. Qed.

(** ** The loops *)

(** Runs the first computation of a [bind] with the triple [H] for it. *)
Tactic Notation "step" constr(H) "as"
    simple_intropattern(x) simple_intropattern(w') ident(Hs) :=
  pose proof H as Hs;
  unfold bind at 1;
  match type of Hs with
  | match ?m with _ => _ end =>
      destruct m as [[x| | |] w']; [simpl in Hs|exact Hs..]
  end.

Lemma hoare_show_results late k n s main results :
  hoare' late
    (λ w, match results with
          | Some (f, m) =>
              Inv' k n (s + 1) s main (Some (Get_result s (Some (f, m)))) w ∧
              imagelist !! s = Some m ∧ f = infer m ∧
              last (trace w) = Some (Get_result s (Some (f, m)))
          | None => Inv' k n s s main (Some (Get_result s None)) w
          end)
    (show_results results (Locals n s))
    (λ l w', ∃ s' prev,
       l = Locals n s' ∧ Inv' k n s' s' main prev w' ∧
       s' = match results with Some _ => s + 1 | None => s end ∧
       in_turn prev (Is_ready true) ∧
       (results ≠ None → in_turn prev (Has_completed_request true))).
Proof.
  intros w Hw. destruct results as [[f m]|]; unfold show_results.
  - step (hoare_showarray late k n s main f m w Hw) as [] w1 H1. simpl.
    by exists (s + 1), (Some (Showarray f)).
  - by exists s, (Some (Get_result s None)).
Qed.

Lemma hoare_main_body late k n s prev :
  n < length imagelist - 1 → loop_head imagelist n prev →
  hoare' late (Inv' k n s s true prev) (main_body o imagelist (Locals n s))
    (λ l w', ∃ k' n' s' prev',
       l = Locals n' s' ∧ Inv' k' n' s' s' true prev' w' ∧
       loop_head imagelist n' prev' ∧
       main_measure capacity imagelist k' n' <
       main_measure capacity imagelist k n).
Proof.
  intros Hn Hhead w HI. unfold main_body. simpl next_frame_id_to_show.
  simpl next_frame_id.
  assert (Hturn : in_turn prev (Get_result s None)).
  { by destruct prev as [[]|]. }
  step (hoare_get_result late k n s true prev Hturn w HI) as results w1 H1.
  assert (Hshow : match results with
                  | Some (f, m) =>
                      Inv' k n (s + 1) s true
                           (Some (Get_result s (Some (f, m)))) w1 ∧
                      imagelist !! s = Some m ∧ f = infer m ∧
                      last (trace w1) = Some (Get_result s (Some (f, m)))
                  | None => Inv' k n s s true (Some (Get_result s None)) w1
                  end) by (destruct results as [[? ?]|]; tauto).
  step (hoare_show_results late k n s true _ w1 Hshow) as l w2 H2.
  destruct H2 as (s' & prev2 & -> & HI' & _ & Hturn2 & _).
  simpl next_frame_id.
  step (hoare_is_ready late k n s' prev2 Hturn2 w2 HI') as ready w3 H3.
  destruct ready.
  - destruct (lookup_lt_is_Some_2 imagelist n) as [image Himage]; [lia|].
    unfold getitem. rewrite Himage. unfold bind at 1, ret at 1.
    step (hoare_submit_data late n s' image Himage Hn w3 H3) as [] w4 H4.
    exists capacity, (n + 1), s', (Some (Submit_data image n image)).
    split_and!; [done..|].
    unfold main_measure. repeat case_decide; lia.
  - destruct H3 as [-> HI3].
    step (hoare_await_any late n s' w3 HI3) as [] w4 H4.
    destruct H4 as [Hcap HI4].
    exists (capacity - 1), n, s', (Some Await_any). split_and!; [done..|].
    unfold main_measure. repeat case_decide; lia.
Qed.

Lemma final_out_of_fuel {X} (late : Prop) k n fetched s main prev w :
  Inv' k n fetched s main prev w → late →
  final o capacity imagelist late (@OutOfFuel X) w.
Proof.
  intros HI Hlate. split; [by eapply Inv_trace_fine|].
  split; [by destruct HI|done].
Qed.

Lemma hoare_main_loop fuel : ∀ k n s prev,
  loop_head imagelist n prev →
  hoare' (fuel < main_measure capacity imagelist k n)
    (Inv' k n s s true prev) (main_loop o fuel imagelist (Locals n s))
    (λ l w', ∃ k' s' prev',
       l = Locals (length imagelist - 1) s' ∧
       Inv' k' (length imagelist - 1) s' s' true prev' w' ∧
       in_turn prev' Await_all).
Proof.
  assert (Hexit : ∀ k n s prev w,
            loop_head imagelist n prev → Inv' k n s s true prev w →
            ¬ (Z.of_nat n < Z.of_nat (length imagelist) - 1)%Z →
            ∃ k' s' prev',
              Locals n s = Locals (length imagelist - 1) s' ∧
              Inv' k' (length imagelist - 1) s' s' true prev' w ∧
              in_turn prev' Await_all).
  { intros k n s prev w Hhead HI Hc.
    assert (n = length imagelist - 1) as ->.
    { destruct HI as [_ _ _ _ _ _ _ [_ ?] _ _ _ _ _ _ _]. lia. }
    exists k, s, prev. split_and!; [done..|].
    destruct prev as [[]|]; simpl in *; try done; lia. }
  induction fuel as [|fuel IH]; intros k n s prev Hhead w HI.
  - simpl. unfold main_cond. case_bool_decide as Hc; simpl in Hc.
    + eapply final_out_of_fuel; [exact HI|].
      unfold main_measure. case_decide; lia.
    + by eapply Hexit.
  - simpl. unfold main_cond. case_bool_decide as Hc; simpl in Hc.
    + assert (Hn : n < length imagelist - 1) by lia.
      step (hoare_main_body
              (S fuel < main_measure capacity imagelist k n) k n s prev
              Hn Hhead w HI)
        as l w1 H1.
      destruct H1 as (k' & n' & s' & prev' & -> & HI' & Hhead' & Hm).
      eapply (hoare_consequence _ _ _ _ _ _ _ (IH k' n' s' prev' Hhead'));
        [lia|by intros ? ?|by intros ? ? ?|exact HI'].
    + by eapply Hexit.
Qed.

Lemma hoare_drain_loop fuel : ∀ n s prev,
  in_turn prev (Has_completed_request true) →
  hoare' (fuel < n - s)
    (Inv' 0 n s s false prev) (drain_loop o fuel (Locals n s))
    (λ l w', l = Locals n n ∧
             Inv' 0 n n n false (Some (Has_completed_request false)) w').
Proof.
  assert (Hexit : ∀ n s w more,
            Inv' 0 n s s false (Some (Has_completed_request more)) w →
            (more = true ↔ s < n) → more = false →
            Locals n s = Locals n n ∧
            Inv' 0 n n n false (Some (Has_completed_request false)) w).
  { intros n s w more HI Hmore ->.
    assert (s = n) as ->; [|done].
    destruct HI as [_ _ _ _ _ _ _ [[_ ?] _] _ _ _ _ _ _ _].
    destruct (decide (s < n)) as [Hs|]; [|lia]. by apply Hmore in Hs. }
  induction fuel as [|fuel IH]; intros n s prev Hturn w HI.
  - simpl.
    step (hoare_has_completed_request (0 < n - s) n s prev Hturn w HI)
      as more w1 H1.
    destruct H1 as [HI1 Hmore]. destruct more; [|by eapply Hexit].
    eapply final_out_of_fuel; [exact HI1|]. destruct Hmore. lia.
  - simpl.
    step (hoare_has_completed_request (S fuel < n - s) n s prev Hturn w HI)
      as more w1 H1.
    destruct H1 as [HI1 Hmore]. destruct more; [|by eapply Hexit].
    assert (Hs : s < n) by (by apply Hmore).
    unfold drain_body. simpl next_frame_id_to_show.
    unfold bind at 1.
    step (hoare_get_result (S fuel < n - s) 0 n s false
            (Some (Has_completed_request true)) I w1 HI1)
      as results w2 H2.
    assert (Hshow : match results with
                    | Some (f, m) =>
                        Inv' 0 n (s + 1) s false
                             (Some (Get_result s (Some (f, m)))) w2 ∧
                        imagelist !! s = Some m ∧ f = infer m ∧
                        last (trace w2) = Some (Get_result s (Some (f, m)))
                    | None => Inv' 0 n s s false (Some (Get_result s None)) w2
                    end) by (destruct results as [[? ?]|]; tauto).
    assert (Hsome : results ≠ None).
    { intros ->. destruct H2 as [[_ [? _] _ _ _ _ _ _ _ _ _ _ _ _ _] Hb].
      specialize (Hb Hs). lia. }
    pose proof (hoare_show_results (S fuel < n - s) 0 n s false _ w2 Hshow)
      as H3.
    destruct (show_results results (Locals n s) w2) as [[l| | |] w3];
      [|exact H3..].
    destruct H3 as (s' & prev3 & -> & HI3 & -> & _ & Hturn3).
    destruct results as [[? ?]|]; [|done].
    eapply (hoare_consequence _ _ _ _ _ _ _
              (IH n (s + 1) prev3 (Hturn3 Hsome)));
      [lia|by intros ? ?|by intros ? ? ?|exact HI3].
Qed.

(** ** The whole of [do_inference] *)

Lemma Inv_new_pipeline : Inv' capacity 0 0 0 true None (new_pipeline capacity).
Proof.
  constructor; simpl; try done.
  - lia.
  - apply NoDup_nil_2.
  - intros id. split; [lia|].
    intros [Hin|[x Hx]]; [by apply elem_of_nil in Hin|].
    by rewrite lookup_empty in Hx.
  - intros q Hq. by apply elem_of_nil in Hq.
  - lia.
  - apply trace_ok_nil.
  - intros _. apply not_elem_of_nil.
Qed.

Lemma hoare_inference_loops fuel :
  hoare' (fuel < 2 * (length imagelist - 1))
    (λ w, w = new_pipeline capacity) (inference_loops o fuel imagelist)
    (λ l w',
       l = Locals (length imagelist - 1) (length imagelist - 1) ∧
       Inv' 0 (length imagelist - 1) (length imagelist - 1)
            (length imagelist - 1) false
            (Some (Has_completed_request false)) w').
Proof.
  intros w ->. unfold inference_loops.
  set (late := fuel < 2 * (length imagelist - 1)).
  assert (Hmain : hoare' late (Inv' capacity 0 0 0 true None)
                    (main_loop o fuel imagelist (Locals 0 0))
                    (λ l w', ∃ k' s' prev',
                       l = Locals (length imagelist - 1) s' ∧
                       Inv' k' (length imagelist - 1) s' s' true prev' w' ∧
                       in_turn prev' Await_all)).
  { eapply hoare_consequence;
      [apply (hoare_main_loop fuel capacity 0 0 None I)| |done..].
    unfold main_measure, late. case_decide; lia. }
  step (Hmain _ Inv_new_pipeline) as l w1 H1.
  destruct H1 as (k' & s' & prev' & -> & HI1 & Hturn).
  step (hoare_await_all late k' _ s' prev' Hturn w1 HI1) as [] w2 H2.
  assert (Hdrain : hoare' late
                     (Inv' 0 (length imagelist - 1) s' s' false
                           (Some Await_all))
                     (drain_loop o fuel (Locals (length imagelist - 1) s'))
                     (λ l w',
                        l = Locals (length imagelist - 1)
                                   (length imagelist - 1) ∧
                        Inv' 0 (length imagelist - 1) (length imagelist - 1)
                             (length imagelist - 1) false
                             (Some (Has_completed_request false)) w')).
  { eapply hoare_consequence;
      [apply (hoare_drain_loop fuel _ s' (Some Await_all) I)| |done..].
    unfold late. lia. }
  apply (Hdrain _ H2).
Qed.

Lemma do_inference_cases fuel :
  match do_inference o fuel imagelist (new_pipeline capacity) with
  | (Return l, w) =>
      l = Locals (length imagelist - 1) (length imagelist - 1) ∧
      Inv' 0 (length imagelist - 1) (length imagelist - 1)
           (length imagelist - 1) false
           (Some (Print_total (length imagelist - 1 + 1))) w ∧
      last (trace w) = Some (Print_total (length imagelist - 1 + 1))
  | (out, w) =>
      final o capacity imagelist (fuel < 2 * (length imagelist - 1)) out w
  end.
Proof.
  unfold do_inference.
  step (hoare_inference_loops fuel _ eq_refl) as l w1 H1.
  destruct H1 as [-> HI1]. simpl next_frame_id.
  pose proof (hoare_print_total (fuel < 2 * (length imagelist - 1)) _ _ _ _
                (length imagelist - 1 + 1) w1 HI1) as H2.
  unfold bind, print_total, ret in *. simpl in *.
  split_and!; [done..|]. by rewrite last_snoc.
Qed.

Lemma do_inference_trace_fine fuel :
  trace_fine capacity imagelist
    (trace (do_inference o fuel imagelist (new_pipeline capacity)).2).
Proof.
  pose proof (do_inference_cases fuel) as H.
  destruct (do_inference o fuel imagelist (new_pipeline capacity))
    as [[l| | |] w]; simpl; [|by destruct H..].
  destruct H as (_ & HI & _). by eapply Inv_trace_fine.
Qed.

Lemma do_inference_healthy fuel :
  healthy o → 0 < capacity → 2 * (length imagelist - 1) ≤ fuel →
  ∃ w, do_inference o fuel imagelist (new_pipeline capacity) =
         (Return (Locals (length imagelist - 1) (length imagelist - 1)), w) ∧
       Inv' 0 (length imagelist - 1) (length imagelist - 1)
            (length imagelist - 1) false
            (Some (Print_total (length imagelist - 1 + 1))) w ∧
       last (trace w) = Some (Print_total (length imagelist - 1 + 1)).
Proof.
  intros Ho Hcap Hfuel. pose proof (do_inference_cases fuel) as H.
  destruct (do_inference o fuel imagelist (new_pipeline capacity))
    as [[l| | |] w].
  - destruct H as (-> & HI & Hl). by exists w.
  - destruct H as (_ & e' & t & _ & Hf & _). by rewrite Ho in Hf.
  - destruct H as (_ & _ & [[t Hf]| ->]); [by rewrite Ho in Hf|lia].
  - destruct H as (_ & _ & ?). lia.
Qed.

(** What [trace_ok] says about the counts at any point. *)
Lemma trace_ok_counts t :
  trace_ok capacity t →
  length (shown t) ≤ length (finished t) ∧
  length (finished t) ≤ length (submitted t) ∧
  length (submitted t) ≤ length (finished t) + capacity.
Proof.
  induction t as [|e t IH] using rev_ind; intros Hok; [simpl; lia|].
  destruct IH as (IH1 & IH2 & IH3).
  { eapply trace_ok_prefix; [exact Hok|by apply prefix_app_r]. }
  destruct (Hok t e) as (_ & _ & He); [done|].
  rewrite shown_app, finished_app, submitted_app, !length_app.
  destruct e; simpl in *; lia.
Qed.

Lemma shown_prefix (p t : list event) :
  p `prefix_of` t → shown p `prefix_of` shown t.
Proof. intros [k ->]. rewrite shown_app. by eexists. Qed.

Lemma trace_ok_each_event t (Q : list event → event → Prop) :
  trace_ok capacity t → (∀ p e, ok_event capacity p e → Q p e) →
  each_event Q t.
Proof. intros Ht HQ p e Hp. by apply HQ, Ht. Qed.

Lemma do_inference_trace_ok fuel :
  trace_ok capacity
    (trace (do_inference o fuel imagelist (new_pipeline capacity)).2).
Proof. by destruct (do_inference_trace_fine fuel). Qed.

(** A run with an empty or one-image list, step by step. *)
Lemma do_inference_short fuel :
  healthy o → length imagelist ≤ 1 →
  do_inference o fuel imagelist (new_pipeline capacity) =
    (Return (Locals 0 0),
     World capacity [] ∅ 2
           [Await_all; Has_completed_request false; Print_total 1]).
Proof.
  intros Ho Hlen.
  assert (Hcond : main_cond imagelist (Locals 0 0) = false).
  { unfold main_cond. apply bool_decide_eq_false. simpl. lia. }
  unfold do_inference, inference_loops, bind.
  destruct fuel; simpl; rewrite Hcond; unfold ret, await_all, engine_call;
    simpl; rewrite Ho; simpl;
    unfold has_completed_request, bind, engine_call; simpl; rewrite Ho;
    reflexivity.
Qed.

(** ** The first loop comes before [await_all], the second after *)

Lemma emits_mono {X} (ok ok' : event → Prop) (m : M X) :
  (∀ e, ok e → ok' e) → emits ok m → emits ok' m.
Proof.
  intros Hok Hm w. destruct (Hm w) as (es & Hes & Hall).
  exists es. split; [done|]. by eapply Forall_impl.
Qed.

Lemma emits_ret {X} ok (x : X) : emits ok (ret x).
Proof. intros w. exists []. by rewrite app_nil_r. Qed.

Lemma emits_bind {X Y} ok (m : M X) (k : X → M Y) :
  emits ok m → (∀ x, emits ok (k x)) → emits ok (bind m k).
Proof.
  intros Hm Hk w. destruct (Hm w) as (es & Hes & Hall). unfold bind.
  destruct (m w) as [[x| | |] w']; simpl in *; [|by exists es..].
  destruct (Hk x w') as (es' & Hes' & Hall').
  exists (es ++ es'). rewrite Hes', Hes, app_assoc.
  split; [done|]. by apply Forall_app.
Qed.

Lemma emits_engine_call {X} (ok : event → Prop) (serve : nat → fate → M X) :
  (∀ e, ok (Raised e)) → (∀ i, ok (Finished i)) →
  (∀ t f, emits ok (serve t f)) → emits ok (engine_call o serve).
Proof.
  intros Hraised Hfinished Hserve w. unfold engine_call.
  assert (Hnormal : ∀ f, ∃ es,
            trace (serve (calls w) f (advance o w)).2 = trace w ++ es ∧
            Forall ok es).
  { intros f. destruct (Hserve (calls w) f (advance o w))
      as (es & Hes & Hall).
    eexists. rewrite Hes. simpl. rewrite <-app_assoc. split; [done|].
    apply Forall_app. split; [|done].
    apply Forall_fmap, Forall_forall. intros q _. apply Hfinished. }
  destruct (fate_of o (calls w)); [apply Hnormal| |apply Hnormal].
  exists [Raised e]. split; [done|]. by constructor.
Qed.

Lemma emits_get_result id : emits not_late (get_result o id).
Proof.
  apply emits_engine_call; [done..|]. intros _ _ w.
  exists [Get_result id (pending_set w !! id)]. split; [done|].
  by constructor.
Qed.

Lemma emits_show_results results l : emits not_late (show_results results l).
Proof.
  destruct results as [[f m]|]; [|apply emits_ret].
  intros w. exists [Showarray f]. split; [done|]. by constructor.
Qed.

Lemma emits_main_body l : emits not_late (main_body o imagelist l).
Proof.
  unfold main_body.
  apply emits_bind; [apply emits_get_result|]. intros results.
  apply emits_bind; [apply emits_show_results|]. intros l'.
  apply emits_bind.
  { apply emits_engine_call; [done..|]. intros _ _ w.
    exists [Is_ready (has_capacity w)]. split; [done|]. by constructor. }
  intros [].
  - apply emits_bind.
    { unfold getitem. destruct (imagelist !! next_frame_id l');
        [apply emits_ret|]. intros w. exists []. by rewrite app_nil_r. }
    intros image. apply emits_bind; [|intros; apply emits_ret].
    apply emits_engine_call; [done..|]. intros _ _ w.
    destruct (has_capacity w).
    + exists [Submit_data image (next_frame_id l') image].
      split; [done|]. by constructor.
    + exists []. by rewrite app_nil_r.
  - apply emits_bind; [|intros; apply emits_ret].
    apply emits_engine_call; [done..|]. intros t f w. cbv zeta.
    destruct (has_capacity (log Await_any w)).
    { exists [Await_any]. split; [done|]. by constructor. }
    simpl busy.
    destruct (busy w !! (wakes o t `mod` length (busy w))) as [q|], f;
      try (exists [Await_any]; split; [done|]; by constructor).
    exists ([Await_any] ++ (Finished ∘ req_id <$> [q])).
    simpl. rewrite <-app_assoc. split; [done|]. by repeat constructor.
Qed.

Lemma emits_main_loop fuel : ∀ l, emits not_late (main_loop o fuel imagelist l).
Proof.
  induction fuel as [|fuel IH]; intros l; simpl;
    destruct (main_cond imagelist l); try apply emits_ret.
  - intros w. exists []. by rewrite app_nil_r.
  - apply emits_bind; [apply emits_main_body|apply IH].
Qed.

Lemma emits_await_all : emits not_late (await_all o).
Proof.
  apply emits_engine_call; [done..|]. intros t f w. cbv zeta.
  assert (Hlog : ∃ es, trace (log Await_all w) = trace w ++ es ∧
                       Forall not_late es).
  { exists [Await_all]. split; [done|]. by constructor. }
  destruct (busy (log Await_all w)) as [|q l] eqn:Hb; [by destruct f|].
  destruct f; [|done..].
  exists ([Await_all] ++ (Finished ∘ req_id <$> q :: l)).
  simpl. rewrite <-app_assoc. split; [done|].
  constructor; [done|]. constructor; [done|].
  apply Forall_fmap, Forall_forall. by intros.
Qed.

Lemma await_all_returned w x w' :
  await_all o w = (Return x, w') → Await_all ∈ trace w'.
Proof.
  unfold await_all, engine_call.
  assert (Hin : ∀ w0 es, Await_all ∈ (trace (log Await_all w0) ++ es)).
  { intros w0 es. simpl. rewrite !elem_of_app, list_elem_of_singleton. tauto. }
  destruct (fate_of o (calls w)); [| |]; cbv zeta; try done.
  - destruct (busy (log Await_all (advance o w))); intros [= _ <-];
      [rewrite <-(app_nil_r (trace _))|]; apply Hin.
  - destruct (busy (log Await_all (advance o w))); [|done].
    intros [= _ <-]. rewrite <-(app_nil_r (trace _)). apply Hin.
Qed.

Lemma emits_drain_loop fuel : ∀ l, emits (λ _, True) (drain_loop o fuel l).
Proof.
  assert (Hmore : emits (λ _, True) (has_completed_request o)).
  { apply emits_engine_call; [done..|]. intros _ _ w. cbv zeta.
    eexists [_]. split; [done|]. by constructor. }
  assert (Hbody : ∀ l, emits (λ _, True) (drain_body o l)).
  { intros l. unfold drain_body. apply emits_bind.
    - eapply emits_mono; [|apply emits_get_result]. done.
    - intros results. eapply emits_mono; [|apply emits_show_results]. done. }
  induction fuel as [|fuel IH]; intros l; simpl.
  - apply emits_bind; [done|]. intros []; [|apply emits_ret].
    intros w. exists []. by rewrite app_nil_r.
  - apply emits_bind; [done|]. intros []; [|apply emits_ret].
    by apply emits_bind.
Qed.

Lemma drain_after_await_all_not_late t :
  Forall not_late t → each_event drain_after_await_all t.
Proof.
  intros Hall p e [k ->]. apply Forall_app in Hall as [Hall _].
  apply Forall_app in Hall as [_ He]. rewrite Forall_singleton in He.
  by destruct e.
Qed.

Lemma drain_after_await_all_app t es :
  each_event drain_after_await_all t → Await_all ∈ t →
  each_event drain_after_await_all (t ++ es).
Proof.
  intros Ht Hin. induction es as [|e' es IH] using rev_ind.
  { by rewrite app_nil_r. }
  intros p e Hp. rewrite app_assoc in Hp.
  apply prefix_snoc_inv in Hp as [Hp|[-> ->]]; [by apply IH|].
  destruct e'; simpl; try done; rewrite elem_of_app; by left.
Qed.

Lemma do_inference_phases fuel :
  each_event drain_after_await_all
    (trace (do_inference o fuel imagelist (new_pipeline capacity)).2).
Proof.
  unfold do_inference, inference_loops, bind.
  destruct (emits_main_loop fuel (Locals 0 0) (new_pipeline capacity))
    as (es1 & H1 & Hall1). simpl in H1.
  destruct (main_loop o fuel imagelist (Locals 0 0) (new_pipeline capacity))
    as [[l| | |] w1]; simpl in H1;
    try (simpl; rewrite H1; by apply drain_after_await_all_not_late).
  destruct (emits_await_all w1) as (es2 & H2 & Hall2).
  pose proof (await_all_returned w1) as Hret.
  assert (Hearly : Forall not_late (trace w1 ++ es2)).
  { rewrite H1. by apply Forall_app. }
  destruct (await_all o w1) as [[[]| | |] w2]; simpl in H2;
    try (simpl; rewrite H2; by apply drain_after_await_all_not_late).
  specialize (Hret () w2 eq_refl).
  destruct (emits_drain_loop fuel l w2) as (es3 & H3 & _).
  assert (Hlate : ∀ es, each_event drain_after_await_all (trace w2 ++ es)).
  { intros es. apply drain_after_await_all_app; [|done].
    rewrite H2. by apply drain_after_await_all_not_late. }
  destruct (drain_loop o fuel l w2) as [[l'| | |] w3]; simpl in H3;
    try (simpl; rewrite H3; by apply Hlate).
  unfold print_total, ret. simpl. rewrite H3, <-app_assoc. apply Hlate.
Qed.

(** X1: [run] never runs out of fuel: whatever the engine does, the two
    loops of [do_inference] end within [2 * len(imagelist)] iterations
    each. *)
Theorem run_never_out_of_fuel : (run capacity o imagelist).1 ≠ OutOfFuel.
Proof.
  unfold run. pose proof (do_inference_cases (2 * length imagelist)) as H.
  destruct (do_inference o (2 * length imagelist) imagelist
              (new_pipeline capacity)) as [[l|x| |] w]; try done.
  destruct H as (_ & _ & ?). lia.
Qed.

(** X2: the submissions made so far are always the first images of
    [imagelist], in order, the k-th tagged [k] and with the image itself as
    metadata. *)
Theorem submissions_in_input_order fuel :
  let t := trace (do_inference o fuel imagelist (new_pipeline capacity)).2 in
  submitted t = imap mk_submission (take (length (submitted t)) imagelist).
Proof. by destruct (do_inference_trace_fine fuel) as (_ & _ & ?). Qed.

(** ** The claims *)

(** C1: whatever the engine's schedule, and at every point of a run, the
    frames shown so far are the results for the first images of
    [imagelist], in the order of the list: the i-th frame shown is the
    result for [imagelist[i]].  And the frames are shown indeed: with an
    engine that neither raises nor stalls, whatever the order in which it
    finishes the requests, the run returns and the i-th frame shown is the
    result for [imagelist[i]] for i = 0, 1, 2, ... up to the last image but
    one. *)
Theorem results_shown_in_input_order fuel :
  always (λ p, shown p = infer <$> take (length (shown p)) imagelist)
         (trace (do_inference o fuel imagelist (new_pipeline capacity)).2) ∧
  (healthy o → 0 < capacity →
   ∃ l w, run capacity o imagelist = (Return l, w) ∧
          length (shown (trace w)) = length imagelist - 1 ∧
          ∀ i image, i < length imagelist - 1 →
                     imagelist !! i = Some image →
                     shown (trace w) !! i = Some (infer image)).
Proof.
  split.
  - intros p Hp. destruct (do_inference_trace_fine fuel) as (_ & Hsh & _).
    apply shown_prefix in Hp as [k Hk]. rewrite Hk in Hsh.
    rewrite length_app in Hsh.
    apply (f_equal (take (length (shown p)))) in Hsh.
    rewrite take_app_length in Hsh. rewrite Hsh at 1.
    rewrite <-fmap_take, take_take. do 2 f_equal. lia.
  - intros Ho Hcap. unfold run.
    destruct (do_inference_healthy (2 * length imagelist) Ho Hcap)
      as (w & -> & HI & _); [lia|].
    eexists _, w. split; [done|].
    pose proof (length_shown_Inv HI) as Hlen. destruct HI.
    split; [done|]. intros i image Hi Himage.
    by rewrite inv_shown0, list_lookup_fmap, lookup_take_lt, Himage.
Qed.

(** C2 (what the code does instead): with a working engine and a
    non-empty [imagelist] the run returns having shown one frame fewer than
    there are images, the results for all images but the last, while its
    final [print] reports [len(imagelist)] frames. *)
Theorem all_but_last_image_shown :
  healthy o → 0 < capacity → imagelist ≠ [] →
  ∃ l w, run capacity o imagelist = (Return l, w) ∧
         shown (trace w) = infer <$> take (length imagelist - 1) imagelist ∧
         length (shown (trace w)) = length imagelist - 1 ∧
         last (trace w) = Some (Print_total (length imagelist)).
Proof.
  intros Ho Hcap Hne. unfold run.
  destruct (do_inference_healthy (2 * length imagelist) Ho Hcap)
    as (w & -> & HI & Hlast); [lia|].
  eexists _, w. split; [done|].
  pose proof (length_shown_Inv HI). destruct HI.
  split_and!; [done..|].
  rewrite Hlast. do 2 f_equal. destruct imagelist; [done|simpl; lia].
Qed.

(** C4 (what the code does instead): the k-th submission carries
    [imagelist[k]] tagged [k], from 0 upwards, but with a working engine
    and a non-empty [imagelist] the submissions stop one image short: the
    last image is never submitted. *)
Theorem all_but_last_image_submitted :
  healthy o → 0 < capacity → imagelist ≠ [] →
  ∃ l w, run capacity o imagelist = (Return l, w) ∧
         submitted (trace w) =
           imap mk_submission (take (length imagelist - 1) imagelist) ∧
         length (submitted (trace w)) < length imagelist.
Proof.
  intros Ho Hcap Hne. unfold run.
  destruct (do_inference_healthy (2 * length imagelist) Ho Hcap)
    as (w & -> & HI & Hlast); [lia|].
  eexists _, w. split; [done|].
  pose proof (length_submitted_Inv HI) as ->. destruct HI.
  split; [done|]. destruct imagelist; [done|simpl; lia].
Qed.

(** C5 (as amended): the driver submits only directly after an [is_ready]
    that returned [True], when fewer than [capacity] requests are in
    flight, and so [submit_data] never fails with [EngineBusy].  At every
    point of a run the requests in flight (submitted, not yet finished by
    the engine) are at most [capacity]; the requests submitted and not yet
    shown are at most [capacity] plus the requests the engine has finished
    and whose frames have not been shown yet. *)
Theorem in_flight_within_capacity fuel :
  let r := do_inference o fuel imagelist (new_pipeline capacity) in
  each_event submits_when_ready (trace r.2) ∧
  each_event (room_at_submission capacity) (trace r.2) ∧
  r.1 ≠ Raise EngineBusy ∧
  always (λ p, in_flight p ≤ capacity ∧
               outstanding p ≤ capacity + buffered p) (trace r.2).
Proof.
  pose proof (do_inference_trace_ok fuel) as Hok.
  pose proof (do_inference_cases fuel) as H. cbv zeta. split_and!.
  - eapply trace_ok_each_event; [exact Hok|].
    intros p e (_ & Ht & He). destruct e; simpl in *; tauto.
  - intros p e Hp. destruct (Hok p e Hp) as (_ & _ & He).
    destruct (trace_ok_counts p) as (? & ? & ?).
    { eapply trace_ok_prefix; [exact Hok|].
      etrans; [by apply prefix_app_r|exact Hp]. }
    destruct e; simpl in *; try done. unfold in_flight. lia.
  - destruct (do_inference o fuel imagelist (new_pipeline capacity))
      as [[l|x| |] w]; simpl; try done.
    destruct H as (_ & e & t & -> & _). done.
  - intros p Hp.
    destruct (trace_ok_counts p) as (? & ? & ?);
      [by eapply trace_ok_prefix|].
    unfold in_flight, outstanding, buffered. lia.
Qed.

(** C6 (as amended): an error raised by the engine ends the run at once
    and unchanged:
    nothing at all follows it on the trace (no retry, no submission, no
    frame), the run's outcome is that very error, whatever was shown before
    is still on the trace, and the driver raises nothing of its own. *)
Theorem engine_error_propagates fuel :
  let r := do_inference o fuel imagelist (new_pipeline capacity) in
  each_event nothing_after_raise (trace r.2) ∧
  (∀ e, last (trace r.2) = Some (Raised e) ↔ r.1 = Raise (EngineError e)) ∧
  (∀ x, r.1 = Raise x → ∃ e t, x = EngineError e ∧ fate_of o t = Fails e).
Proof.
  pose proof (do_inference_trace_ok fuel) as Hok.
  pose proof (do_inference_cases fuel) as H. cbv zeta.
  destruct (do_inference o fuel imagelist (new_pipeline capacity))
    as [[l|x| |] w]; simpl in *.
  all: split; [eapply trace_ok_each_event; [exact Hok|by intros p e []]|].
  - destruct H as (_ & _ & Hl). split; [|done].
    intros e. rewrite Hl. split; discriminate.
  - destruct H as (_ & e & t & -> & Hf & Hl). split.
    + intros e'. rewrite Hl. split; intros [= ->]; done.
    + intros x [= <-]. by exists e, t.
  - destruct H as (_ & Hl & _). split; [|done].
    intros e. split; [by intros ?%Hl|discriminate].
  - destruct H as (_ & Hl & _). split; [|done].
    intros e. split; [by intros ?%Hl|discriminate].
Qed.

(** C7 (what the code does instead): with a working engine that has room
    for a request, the run on a non-empty [imagelist] does end, but with
    both counters at [len(imagelist) - 1]: the delivery counter never
    reaches [len(imagelist)]. *)
Theorem run_ends_one_image_short :
  healthy o → 0 < capacity → imagelist ≠ [] →
  ∃ l w, run capacity o imagelist = (Return l, w) ∧
         next_frame_id l = length imagelist - 1 ∧
         next_frame_id_to_show l = length imagelist - 1 ∧
         next_frame_id_to_show l ≠ length imagelist.
Proof.
  intros Ho Hcap Hne. unfold run.
  destruct (do_inference_healthy (2 * length imagelist) Ho Hcap)
    as (w & -> & HI & Hlast); [lia|].
  eexists _, w. split_and!; [done..|].
  simpl. destruct imagelist; [done|simpl; lia].
Qed.

(** C8 (what the code does instead): every frame shown is fetched by a
    [get_result] call of its own, made for the current delivery counter
    immediately before it is shown, and the steps of the driver follow one
    another as [in_turn] allows.  Before [await_all] a [get_result] never
    follows a frame: it is the first step or follows a submission or an
    [await_any]; and when [is_ready] has returned [False] the driver calls
    [await_any] next, whatever results there are.  Only after [await_all]
    does the driver call [has_completed_request], and from then on it
    neither waits in [await_any] nor checks [is_ready] nor submits. *)
Theorem one_fetch_per_frame fuel :
  let t := trace (do_inference o fuel imagelist (new_pipeline capacity)).2 in
  each_event fetch_then_show t ∧ each_event steps_in_turn t ∧
  each_event quiet_after_await_all t ∧
  each_event drain_after_await_all t ∧
  each_event fetch_follows_submit_or_wait t ∧
  each_event waits_when_not_ready t.
Proof.
  pose proof (do_inference_trace_ok fuel) as Hok.
  pose proof (do_inference_phases fuel) as Hphase. cbv zeta.
  split_and!.
  - eapply trace_ok_each_event; [exact Hok|].
    intros p e (_ & Ht & He). destruct e; simpl in *; tauto.
  - eapply trace_ok_each_event; [exact Hok|]. by intros p e (_ & Ht & He).
  - eapply trace_ok_each_event; [exact Hok|].
    intros p e (_ & Ht & He). destruct e; simpl in *; tauto.
  - done.
  - intros p e Hp. destruct (Hok p e Hp) as (_ & Ht & _).
    destruct e; try done. simpl. intros Hmain.
    destruct (last (driver_view p)) as [e'|] eqn:Hlast; [|done].
    destruct e' as [| | | | |b| | | |]; try done. destruct b; [|done].
    apply last_Some in Hlast as [q Hq].
    assert (Hin : Has_completed_request true ∈ p).
    { apply (list_elem_of_filter (λ e, is_driver_event e = true)).
      unfold driver_view in Hq. rewrite Hq, elem_of_app,
        list_elem_of_singleton. by right. }
    apply list_elem_of_split in Hin as (p1 & p2 & ->).
    destruct Hmain. rewrite elem_of_app. left.
    apply (Hphase p1 (Has_completed_request true)).
    etrans; [|exact Hp]. rewrite (cons_middle _ p1 p2), !app_assoc.
    by do 2 apply prefix_app_r.
  - intros p e Hp. destruct (Hok p e Hp) as (_ & Ht & _).
    unfold waits_when_not_ready. intros Hlast. rewrite Hlast in Ht.
    by destruct e as [? []| | | | | | | | |]; simpl in *;
      try destruct Ht as (? & ? & ?).
Qed.

(** C10: at every point of a run the frames shown are no more than the
    images submitted; every [get_result] asks for the id equal to the
    number of frames shown so far, and every submission is tagged with the
    number of submissions made so far; at the end the two counters are
    these two numbers. *)
Theorem delivery_counter_follows fuel :
  let r := do_inference o fuel imagelist (new_pipeline capacity) in
  always (λ p, length (shown p) ≤ length (submitted p)) (trace r.2) ∧
  each_event cursor_events (trace r.2) ∧
  (∀ l, r.1 = Return l →
        next_frame_id_to_show l = length (shown (trace r.2)) ∧
        next_frame_id l = length (submitted (trace r.2)) ∧
        next_frame_id_to_show l ≤ next_frame_id l).
Proof.
  pose proof (do_inference_trace_ok fuel) as Hok.
  pose proof (do_inference_cases fuel) as H. cbv zeta. split_and!.
  - intros p Hp.
    destruct (trace_ok_counts p) as (? & ? & ?);
      [by eapply trace_ok_prefix|lia].
  - eapply trace_ok_each_event; [exact Hok|].
    intros p e (_ & Ht & He). destruct e; simpl in *; tauto.
  - intros l Hl.
    destruct (do_inference o fuel imagelist (new_pipeline capacity))
      as [[l'|x| |] w]; try discriminate.
    simpl in *. injection Hl as ->. destruct H as (-> & HI & _).
    by rewrite (length_shown_Inv HI), (length_submitted_Inv HI).
Qed.

(** ** Beyond the claims: what is left at the end, waiting, the display *)

Lemma fmap_imap_mk_submission (l : list Image) :
  (λ '(image, _, _), infer image) <$> imap mk_submission l = infer <$> l.
Proof.
  assert (H : ∀ g : nat → nat,
            (λ '(image, _, _), infer image) <$>
              imap (λ i (x : Image), (x, g i, x)) l = infer <$> l).
  { induction l as [|x l IH]; intros g; [done|].
    simpl. f_equal. apply (IH (g ∘ S)). }
  apply (H id).
Qed.

(** X3: when [do_inference] returns, nothing is left in the pipeline:
    the frame of every submitted image has been shown, in the order of
    submission, every request has finished, none is in flight and no
    result is held back. *)
Theorem nothing_left_at_return fuel l w :
  do_inference o fuel imagelist (new_pipeline capacity) = (Return l, w) →
  shown (trace w) = (λ '(image, _, _), infer image) <$> submitted (trace w) ∧
  length (finished (trace w)) = length (submitted (trace w)) ∧
  busy w = [] ∧ pending_set w = ∅.
Proof.
  intros Hrun. pose proof (do_inference_cases fuel) as H.
  rewrite Hrun in H. destruct H as (_ & HI & _).
  pose proof (length_submitted_Inv HI) as Hsub. destruct HI.
  assert (Hidle : busy w = []).
  { destruct (busy w); [done|simpl in *; lia]. }
  split_and!; [| |done|].
  - by rewrite inv_shown0, inv_submitted0, fmap_imap_mk_submission.
  - rewrite Hsub, <-inv_finished0, Hidle. simpl. lia.
  - apply map_empty. intros id. apply eq_None_not_Some. intros Hid.
    assert (length imagelist - 1 ≤ id < length imagelist - 1); [|lia].
    apply inv_ids0. by right.
Qed.

Lemma quiet_snoc w e : quiet w → e ≠ Await_any → quiet (log e w).
Proof.
  unfold quiet. simpl. rewrite elem_of_app, list_elem_of_singleton.
  intros ? ? [?|?]; congruence.
Qed.

Lemma quiet_retire done rest w : quiet w → quiet (retire done rest w).
Proof.
  unfold quiet. simpl. rewrite elem_of_app.
  intros Hw [?|(q & ? & _)%list_elem_of_fmap]; done.
Qed.

Lemma quiet_advance w : quiet w → quiet (advance o w).
Proof. apply quiet_retire. Qed.

Lemma room_advance n w : room capacity n w → room capacity n (advance o w).
Proof.
  intros (Hc & Hb & Hq). split_and!; [done| |by apply quiet_advance].
  simpl. etrans; [apply length_filter|done].
Qed.

Lemma room_quiet n w : room capacity n w → quiet w.
Proof. by intros (_ & _ & ?). Qed.

Lemma no_wait_bind {X Y} (P : world → Prop) (m : M X) (k : X → M Y)
    (Q : X → world → Prop) (R : Y → world → Prop) :
  no_wait P m Q → (∀ x, no_wait (Q x) (k x) R) → no_wait P (bind m k) R.
Proof.
  intros Hm Hk w Hw. specialize (Hm w Hw). unfold bind.
  destruct (m w) as [[x| | |] w']; [by apply Hk|done..].
Qed.

Lemma no_wait_consequence {X} (P P' : world → Prop) (m : M X)
    (Q Q' : X → world → Prop) :
  no_wait P m Q → (∀ w, P' w → P w) → (∀ x w, Q x w → Q' x w) →
  no_wait P' m Q'.
Proof.
  intros Hm HP HQ w Hw. specialize (Hm w (HP w Hw)).
  destruct (m w) as [[x| | |] w']; [by apply HQ|done..].
Qed.

Lemma no_wait_engine_call {X} (P : world → Prop) (serve : nat → fate → M X)
    (Q : X → world → Prop) :
  (∀ w, P w → quiet w) → (∀ w, P w → P (advance o w)) →
  (∀ t f, no_wait P (serve t f) Q) →
  no_wait P (engine_call o serve) Q.
Proof.
  intros HP Hadv Hserve w Hw. unfold engine_call.
  destruct (fate_of o (calls w));
    [by apply Hserve, Hadv|by apply quiet_snoc; [apply HP|]
    |by apply Hserve, Hadv].
Qed.

Lemma no_wait_get_result (P : world → Prop) id :
  (∀ w, P w → quiet w) → (∀ w, P w → P (advance o w)) →
  (∀ w m e, P w → e ≠ Await_any →
            P (World (num_requests w) (busy w) m (calls w) (trace w ++ [e]))) →
  no_wait P (get_result o id) (λ _, P).
Proof.
  intros HP Hadv Hlog. apply no_wait_engine_call; [done..|].
  intros _ _ w Hw. unfold log. simpl. by apply Hlog.
Qed.

Lemma room_log n w m e :
  room capacity n w → e ≠ Await_any →
  room capacity n
       (World (num_requests w) (busy w) m (calls w) (trace w ++ [e])).
Proof.
  intros (Hc & Hb & Hq) He. split_and!; [done..|].
  unfold quiet in *. simpl. rewrite elem_of_app, list_elem_of_singleton.
  intros [?|?]; congruence.
Qed.

Lemma quiet_log w m e :
  quiet w → e ≠ Await_any →
  quiet (World (num_requests w) (busy w) m (calls w) (trace w ++ [e])).
Proof.
  unfold quiet. simpl. rewrite elem_of_app, list_elem_of_singleton.
  intros ? ? [?|?]; congruence.
Qed.

Lemma no_wait_show_results (P : world → Prop) results l :
  (∀ w m e, P w → e ≠ Await_any →
            P (World (num_requests w) (busy w) m (calls w) (trace w ++ [e]))) →
  no_wait P (show_results results l)
    (λ l' w', P w' ∧ next_frame_id l' = next_frame_id l).
Proof.
  intros Hlog w Hw. destruct results as [[f m]|]; simpl; [|done].
  split; [|done].
  by apply (Hlog w (pending_set w) (Showarray f)) in Hw; [destruct w|].
Qed.

Lemma no_wait_main_body n s :
  n < capacity →
  no_wait (room capacity n) (main_body o imagelist (Locals n s))
    (λ l' w', room capacity (n + 1) w' ∧ next_frame_id l' = n + 1).
Proof.
  intros Hn. unfold main_body.
  eapply no_wait_bind.
  { apply no_wait_get_result;
      [apply room_quiet|apply room_advance|apply room_log]. }
  intros results. eapply no_wait_bind.
  { apply no_wait_show_results, room_log. }
  intros l'. simpl. eapply no_wait_bind.
  { eapply (no_wait_engine_call _ _
              (λ ready w', (room capacity n w' ∧ next_frame_id l' = n) ∧
                           ready = true)).
    - intros w [Hw _]. by eapply room_quiet.
    - intros w [Hw ?]. split; [by apply room_advance|done].
    - intros _ _ w [Hw Hl]. simpl. unfold has_capacity.
      destruct Hw as (Hc & Hb & Hq). rewrite bool_decide_true by lia.
      split_and!; [|done..].
      by apply (room_log n w (pending_set w) (Is_ready true)). }
  intros ready w [[Hw Hl] ->]. rewrite Hl.
  unfold bind at 1, getitem.
  destruct (imagelist !! n) as [image|]; [|by eapply room_quiet].
  unfold ret at 1.
  assert (Hsub : no_wait (room capacity n) (submit_data o image n image)
                   (λ _, room capacity (n + 1))).
  { apply no_wait_engine_call; [apply room_quiet|apply room_advance|].
    intros _ _ w1 (Hc & Hb & Hq). unfold has_capacity.
    rewrite bool_decide_true by lia. split_and!; [done|..].
    - simpl. rewrite length_app. simpl. lia.
    - unfold quiet in *. simpl.
      rewrite elem_of_app, list_elem_of_singleton.
      intros [?|?]; congruence. }
  specialize (Hsub w Hw). unfold bind.
  by destruct (submit_data o image n image w) as [[[]| | |] w'].
Qed.

Lemma no_wait_main_loop fuel : ∀ l,
  length imagelist - 1 ≤ capacity →
  no_wait (room capacity (next_frame_id l)) (main_loop o fuel imagelist l)
    (λ _, quiet).
Proof.
  induction fuel as [|fuel IH]; intros [n s] Hcap w Hw; simpl;
    unfold main_cond; case_bool_decide as Hc; simpl in Hc;
    try by eapply room_quiet.
  assert (Hn : n < capacity) by lia.
  pose proof (no_wait_main_body n s Hn w Hw) as H1. unfold bind.
  destruct (main_body o imagelist (Locals n s) w) as [[l'| | |] w'];
    [|done..].
  destruct H1 as [Hw' Hl']. apply (IH l' Hcap). by rewrite Hl'.
Qed.

Lemma no_wait_drain_loop fuel : ∀ l,
  no_wait quiet (drain_loop o fuel l) (λ _, quiet).
Proof.
  assert (Hmore : no_wait quiet (has_completed_request o) (λ _, quiet)).
  { apply no_wait_engine_call; [done|apply quiet_advance|].
    intros _ _ w Hw. by apply quiet_snoc. }
  induction fuel as [|fuel IH]; intros l; simpl.
  - eapply no_wait_bind; [exact Hmore|]. intros [] w Hw; done.
  - eapply no_wait_bind; [exact Hmore|]. intros [] w Hw; [|done].
    unfold drain_body. revert w Hw.
    eapply no_wait_bind; [|intros l'; apply IH].
    eapply no_wait_bind.
    { apply no_wait_get_result; [done|apply quiet_advance|apply quiet_log]. }
    intros results. eapply no_wait_consequence;
      [apply (no_wait_show_results quiet), quiet_log|done|].
    by intros ? ? [? _].
Qed.

Lemma no_wait_await_all : no_wait quiet (await_all o) (λ _, quiet).
Proof.
  apply no_wait_engine_call; [done|apply quiet_advance|].
  intros _ f w Hw. cbv zeta.
  assert (Hlog : quiet (log Await_all w)) by (by apply quiet_snoc).
  simpl busy. destruct f, (busy w); try done; by apply quiet_retire.
Qed.

(** X4: when the engine has at least [len(imagelist) - 1] infer requests,
    [do_inference] never calls [await_any]: [is_ready] holds at every
    iteration of the first loop and each iteration submits an image. *)
Theorem never_waits_with_enough_requests fuel :
  length imagelist - 1 ≤ capacity →
  Await_any ∉ trace (do_inference o fuel imagelist (new_pipeline capacity)).2.
Proof.
  intros Hcap.
  assert (H : no_wait (room capacity 0) (do_inference o fuel imagelist)
                (λ _, quiet)).
  { unfold do_inference.
    apply (no_wait_bind _ _ _ (λ _, quiet));
      [|intros l w Hw; by apply quiet_snoc].
    unfold inference_loops.
    eapply no_wait_bind; [apply (no_wait_main_loop fuel (Locals 0 0) Hcap)|].
    intros l. eapply no_wait_bind; [apply no_wait_await_all|].
    intros []. apply no_wait_drain_loop. }
  specialize (H (new_pipeline capacity)).
  destruct (do_inference o fuel imagelist (new_pipeline capacity))
    as [[l| | |] w]; apply H; split_and!; simpl; try done;
    apply not_elem_of_nil.
Qed.

Section Shown.

Context {Jpeg : Type}.
Variable imencode : Frame → Jpeg.

Lemma fold_showarray_handle frames (areas : list Jpeg) picture :
  fold_left (λ '(display_handle, areas) result,
               let '(display_handle, areas) :=
                 showarray_handle imencode result display_handle areas in
               (Some display_handle, areas))
            frames (Some (length areas), areas ++ [picture]) =
    (Some (length areas),
     areas ++ [from_option imencode picture (last frames)]).
Proof.
  revert picture. induction frames as [|f frames IH]; intros picture; [done|].
  simpl. unfold update. rewrite insert_app_r_alt by done.
  rewrite Nat.sub_diag. simpl. rewrite IH, last_cons.
  by destruct (last frames).
Qed.

Lemma show_all_cons f frames (areas : list Jpeg) :
  show_all imencode (f :: frames) areas =
    (Some (length areas),
     areas ++ [from_option imencode (imencode f) (last frames)]).
Proof. unfold show_all. simpl. apply fold_showarray_handle. Qed.

(** X5: however many frames are shown through [display_handle], at most one
    display area is made: none for no frame, otherwise the one created by
    the first call of [showarray], which every later call updates, so that
    it holds the picture of the last frame; the areas that were there
    before are untouched. *)
Theorem one_display_area frames (areas : list Jpeg) :
  show_all imencode frames areas =
    match last frames with
    | None => (None, areas)
    | Some result => (Some (length areas), areas ++ [imencode result])
    end.
Proof.
  destruct frames as [|f frames]; [done|].
  rewrite show_all_cons, last_cons. by destruct (last frames).
Qed.

(** X6: after a run with a healthy engine on two images or more, the
    notebook shows one picture: the frame of the last image but one. *)
Theorem display_ends_one_image_short (areas : list Jpeg) image :
  healthy o → 0 < capacity → 2 ≤ length imagelist →
  imagelist !! (length imagelist - 2) = Some image →
  show_all imencode (shown (trace (run capacity o imagelist).2)) areas =
    (Some (length areas), areas ++ [imencode (infer image)]).
Proof.
  intros Ho Hcap Hlen Himage.
  destruct (do_inference_healthy (2 * length imagelist) Ho Hcap)
    as (w & Hrun & HI & _); [lia|].
  unfold run. rewrite Hrun. simpl. destruct HI.
  rewrite inv_shown0.
  replace (length imagelist - 1) with (S (length imagelist - 2)) by lia.
  rewrite (take_S_r _ _ _ Himage), fmap_app. simpl.
  destruct (infer <$> take (length imagelist - 2) imagelist)
    as [|f frames]; [done|].
  simpl. by rewrite show_all_cons, last_snoc.
Qed.

End Shown.

End Run.

(** C3 (as amended): on an empty [imagelist], with an engine that does not
    fail, [do_inference] raises nothing: it skips the first loop, calls
    [await_all] and [has_completed_request] once each, submits and shows
    nothing, prints a total of 1 frame and returns. *)
Theorem empty_imagelist_returns (o : oracle) (capacity fuel : nat) :
  healthy o →
  do_inference o fuel [] (new_pipeline capacity) =
    (Return (Locals 0 0),
     World capacity [] ∅ 2
           [Await_all; Has_completed_request false; Print_total 1]).
Proof. intros Ho. apply do_inference_short; [done|simpl; lia]. Qed.

(** C9: for an [imagelist] of length one and an engine that does not fail,
    the body of the first loop never runs: the image is not submitted,
    nothing is shown, and the run returns after [await_all] and one
    [has_completed_request]. *)
Theorem single_image_never_submitted (o : oracle) (capacity fuel : nat)
    (image : Image) :
  healthy o →
  ∃ w, do_inference o fuel [image] (new_pipeline capacity) =
         (Return (Locals 0 0), w) ∧
       trace w = [Await_all; Has_completed_request false; Print_total 1] ∧
       submitted (trace w) = [] ∧ shown (trace w) = [].
Proof.
  intros Ho. rewrite do_inference_short by (done || (simpl; lia)).
  eexists. split; [done|]. by simpl.
Qed.

End Driver.

(** * The dataset *)

Lemma str_compare_trans s1 : ∀ s2 s3,
  String.compare s1 s2 ≠ Gt → String.compare s2 s3 ≠ Gt →
  String.compare s1 s3 ≠ Gt.
Proof.
  induction s1 as [|c1 s1 IH]; intros [|c2 s2] [|c3 s3]; simpl; try done.
  unfold Ascii.compare.
  destruct (N.compare_spec (Ascii.N_of_ascii c1) (Ascii.N_of_ascii c2))
    as [H12|H12|H12];
    destruct (N.compare_spec (Ascii.N_of_ascii c2) (Ascii.N_of_ascii c3))
      as [H23|H23|H23];
    destruct (N.compare_spec (Ascii.N_of_ascii c1) (Ascii.N_of_ascii c3))
      as [H13|H13|H13]; try done; try lia.
  apply IH.
Qed.

Lemma str_le_compare s1 s2 : str_le s1 s2 ↔ String.compare s1 s2 ≠ Gt.
Proof. unfold str_le, String.leb. by destruct (String.compare s1 s2). Qed.

#[local] Instance str_le_trans : Transitive str_le.
Proof.
  intros s1 s2 s3. rewrite !str_le_compare. apply str_compare_trans.
Qed.

#[local] Instance str_le_total : Total str_le.
Proof. intros s1 s2. apply String.leb_total. Qed.

Lemma StronglySorted_filter {A} (R : relation A) (P : A → Prop)
    `{!∀ x, Decision (P x)} (l : list A) :
  StronglySorted R l → StronglySorted R (filter P l).
Proof.
  induction 1 as [|x l Hl IH Hx]; [constructor|].
  rewrite filter_cons. case_decide; [|done].
  constructor; [done|]. rewrite Forall_forall in *.
  intros y [_ Hy]%list_elem_of_filter. by apply Hx.
Qed.

Lemma sorted_nil l : sorted l = [] ↔ l = [].
Proof.
  unfold sorted. rewrite <-!Permutation_nil_r.
  by rewrite merge_sort_Permutation.
Qed.

Section DatasetFacts.

Context {Transforms : Type}.
Variables (glob_glob : string → list string) (case_of : string → string).
Variable shuffle : list string → list string.

Local Abbreviation init := (KitsDataset_init glob_glob case_of shuffle).
Local Abbreviation found basedir :=
  (glob_glob (basedir +:+ "/case_*/segmentation_frames/*png")).

Lemma allmasks_nil basedir : allmasks glob_glob basedir = [] ↔ found basedir = [].
Proof. apply sorted_nil. Qed.

(** X7: [KitsDataset(basedir, dataset_type, transforms)] raises a
    [ValueError] in two cases only: when the glob finds no mask file under
    [basedir] (this is checked first, whatever [dataset_type] is), and when
    [dataset_type] is neither "train" nor "val".  Otherwise it gives an
    object with the arguments it got, and prints the number of its items. *)
Theorem KitsDataset_init_cases basedir_ dataset_type_ (transforms_ : Transforms) :
  match init basedir_ dataset_type_ transforms_ with
  | inl e =>
      found basedir_ = [] ∧
      e = ValueError ("basedir: '" +:+ basedir_ +:+
                      "' does not contain data for type '" +:+
                      dataset_type_ +:+ "'") ∨
      found basedir_ ≠ [] ∧
      dataset_type_ ≠ "train" ∧ dataset_type_ ≠ "val" ∧
      e = ValueError "Please choose train or val dataset split"
  | inr (self, line) =>
      found basedir_ ≠ [] ∧
      (dataset_type_ = "train" ∨ dataset_type_ = "val") ∧
      basedir self = basedir_ ∧ dataset_type self = dataset_type_ ∧
      transforms self = transforms_ ∧
      line = "Created " +:+ dataset_type_ +:+ " dataset with " +:+
             pretty (KitsDataset_len self) +:+
             " items. Base directory for data: " +:+ basedir_
  end.
Proof.
  unfold KitsDataset_init. case_bool_decide as Hnil.
  { left. split; [|done]. by apply allmasks_nil, length_zero_iff_nil. }
  assert (Hfound : found basedir_ ≠ []).
  { intros Hfound. by apply Hnil, length_zero_iff_nil, allmasks_nil. }
  case_bool_decide as Htrain; [by split_and!; [|left|..]|].
  case_bool_decide as Hval; [by split_and!; [|right|..]|].
  by right.
Qed.

(** X8: the two splits share out the mask files: with the same files
    under [basedir], the items of the training set and those of the
    validation set are together the files the glob found, each once; the
    validation set has the files of the validation patients and the
    training set the others. *)
Theorem KitsDataset_splits_share_out basedir_ (transforms_ : Transforms) :
  (∀ masks, shuffle masks ≡ₚ masks) → found basedir_ ≠ [] →
  ∃ train val line_train line_val,
    init basedir_ "train" transforms_ = inr (train, line_train) ∧
    init basedir_ "val" transforms_ = inr (val, line_val) ∧
    dataset train ++ dataset val ≡ₚ found basedir_ ∧
    (∀ mask, mask ∈ dataset val ↔
             mask ∈ found basedir_ ∧ case_of mask ∈ valcases) ∧
    (∀ mask, mask ∈ dataset train ↔
             mask ∈ found basedir_ ∧ case_of mask ∉ valcases) ∧
    KitsDataset_len train + KitsDataset_len val = length (found basedir_).
Proof.
  intros Hshuffle Hfound. unfold KitsDataset_init.
  rewrite bool_decide_false
    by (by rewrite length_zero_iff_nil, allmasks_nil).
  simpl. do 4 eexists. split; [done|]. split; [done|]. simpl.
  assert (Hperm : shuffle (filter (λ mask, case_of mask ∉ valcases)
                                  (allmasks glob_glob basedir_)) ++
                  filter (λ mask, case_of mask ∈ valcases)
                         (allmasks glob_glob basedir_) ≡ₚ found basedir_).
  { rewrite Hshuffle, Permutation_app_comm, filter_app_complement.
    apply merge_sort_Permutation. }
  assert (Hin : ∀ mask, mask ∈ allmasks glob_glob basedir_ ↔
                        mask ∈ found basedir_).
  { intros mask. unfold allmasks, sorted.
    by rewrite merge_sort_Permutation. }
  split_and!; [done|..].
  - intros mask. by rewrite list_elem_of_filter, Hin, (comm and).
  - intros mask. by rewrite Hshuffle, list_elem_of_filter, Hin, (comm and).
  - unfold KitsDataset_len. simpl. by rewrite <-length_app, Hperm.
Qed.

(** X9: the validation set is not shuffled: its items are in the order of
    [sorted], ascending as [str] compares, whatever [random.shuffle]
    does. *)
Theorem KitsDataset_val_sorted basedir_ (transforms_ : Transforms) val line :
  init basedir_ "val" transforms_ = inr (val, line) →
  StronglySorted str_le (dataset val).
Proof.
  unfold KitsDataset_init. case_bool_decide; [done|]. simpl.
  intros [= <- _]. simpl.
  apply StronglySorted_filter, StronglySorted_merge_sort; apply _.
Qed.

(** X10: the check for missing data looks at the mask files of all
    patients, not at those of the split asked for: when all the files
    under [basedir] are of validation patients, the training set is made
    without an exception and has no item. *)
Theorem KitsDataset_train_can_be_empty basedir_ (transforms_ : Transforms) :
  (∀ masks, shuffle masks ≡ₚ masks) → found basedir_ ≠ [] →
  (∀ mask, mask ∈ found basedir_ → case_of mask ∈ valcases) →
  ∃ train,
    init basedir_ "train" transforms_ =
      inr (train,
           "Created train dataset with 0 items. Base directory for data: "
           +:+ basedir_) ∧
    KitsDataset_len train = 0.
Proof.
  intros Hshuffle Hfound Hval. unfold KitsDataset_init.
  rewrite bool_decide_false
    by (by rewrite length_zero_iff_nil, allmasks_nil).
  simpl.
  assert (Hnone : filter (λ mask, case_of mask ∉ valcases)
                         (allmasks glob_glob basedir_) = []).
  { destruct (filter _ _) as [|mask masks] eqn:Hmasks; [done|].
    assert (Hmask : mask ∈ mask :: masks) by apply list_elem_of_here.
    rewrite <-Hmasks in Hmask.
    apply list_elem_of_filter in Hmask as [Hcase Hmask]. destruct Hcase.
    apply Hval. unfold allmasks, sorted in Hmask.
    by rewrite merge_sort_Permutation in Hmask. }
  rewrite Hnone. pose proof (Hshuffle []) as Hempty.
  apply Permutation_nil_r in Hempty. rewrite Hempty.
  by eexists.
Qed.

End DatasetFacts.

(** * Concrete runs

    Images are numbers, the frame for an image is ten times the image. *)

(** C2, at [imagelist = [1; 2; 3]] with two infer requests: two frames are
    shown and three are reported. *)
Lemma all_but_last_image_shown_witness :
  ∃ l w, run (λ x : nat, x * 10) 2 (@calm nat) [1; 2; 3] = (Return l, w) ∧
         shown (trace w) = [10; 20] ∧
         length (shown (trace w)) = 2 ∧
         last (trace w) = Some (Print_total 3).
Proof.
  apply (all_but_last_image_shown (λ x : nat, x * 10) calm 2 [1; 2; 3]);
    [intros t; reflexivity|lia|discriminate].
Defined.

(** C3: on the empty list the run does not raise: it returns after
    [await_all] and [has_completed_request]. *)
Lemma empty_imagelist_raises_nothing :
  ¬ raises (run (λ x : nat, x * 10) 2 (@calm nat) []).
Proof. intros [e He]. vm_compute in He. discriminate. Qed.

(** C3 (as amended), with two infer requests and no fuel at all. *)
Lemma empty_imagelist_returns_witness :
  do_inference (λ x : nat, x * 10) (@calm nat) 0 [] (new_pipeline 2) =
    (Return (Locals 0 0),
     World 2 [] ∅ 2 [Await_all; Has_completed_request false; Print_total 1]).
Proof.
  apply (empty_imagelist_returns (λ x : nat, x * 10) calm 2 0).
  intros t. reflexivity.
Defined.

(** C4, at [imagelist = [1; 2; 3]]: images 1 and 2 are submitted, 3 is not. *)
Lemma all_but_last_image_submitted_witness :
  ∃ l w, run (λ x : nat, x * 10) 2 (@calm nat) [1; 2; 3] = (Return l, w) ∧
         submitted (trace w) = [(1, 0, 1); (2, 1, 2)] ∧
         length (submitted (trace w)) < 3.
Proof.
  apply (all_but_last_image_submitted (λ x : nat, x * 10) calm 2 [1; 2; 3]);
    [intros t; reflexivity|lia|discriminate].
Defined.

(** C5: with two infer requests, request 1 finishing before request 0 lets
    the driver submit a third image while no frame has been shown yet. *)
Lemma outstanding_exceeds_capacity :
  ¬ always (λ p, outstanding p ≤ 2)
      (trace (run (λ x : nat, x * 10) 2 (@finishing nat [(6, 1)])
                  [1; 2; 3; 4; 5]).2).
Proof.
  intros H.
  pose proof (H _ (prefix_take _ 10)) as H10. vm_compute in H10. lia.
Qed.

(** The first ten events of that run: the third submission is made when
    request 1 has finished and nothing has been shown. *)
Example third_submission_before_first_frame :
  take 10 (trace (run (λ x : nat, x * 10) 2 (@finishing nat [(6, 1)])
                      [1; 2; 3; 4; 5]).2) =
    [Get_result 0 None; Is_ready true; Submit_data 1 0 1;
     Get_result 0 None; Is_ready true; Submit_data 2 1 2;
     Finished 1; Get_result 0 None; Is_ready true; Submit_data 3 2 3].
Proof. vm_compute. reflexivity. Qed.

(** C7, at [imagelist = [1; 2; 3]]: the run ends with both counters at 2. *)
Lemma run_ends_one_image_short_witness :
  ∃ l w, run (λ x : nat, x * 10) 2 (@calm nat) [1; 2; 3] = (Return l, w) ∧
         next_frame_id l = 2 ∧ next_frame_id_to_show l = 2 ∧
         next_frame_id_to_show l ≠ 3.
Proof.
  apply (run_ends_one_image_short (λ x : nat, x * 10) calm 2 [1; 2; 3]);
    [intros t; reflexivity|lia|discriminate].
Defined.

(** C8: with three infer requests, request 1 finishes first and request 0
    later; frame 10 is shown when the completion of request 1 is already
    held, and yet the driver waits in [await_any] before it shows frame
    20. *)
Lemma waits_between_buffered_frames :
  ¬ drains_in_one_pass
      (trace (run (λ x : nat, x * 10) 3 (@finishing nat [(9, 1); (13, 0)])
                  [1; 2; 3; 4; 5; 6; 7]).2).
Proof.
  intros H.
  set (t := trace (run (λ x : nat, x * 10) 3
                       (@finishing nat [(9, 1); (13, 0)])
                       [1; 2; 3; 4; 5; 6; 7]).2) in H.
  apply (H (take 18 t) 10 (take 4 (drop 19 t)) 20 (drop 24 t)).
  - vm_compute. reflexivity.
  - vm_compute. reflexivity.
  - vm_compute. apply list_elem_of_here.
  - vm_compute. apply list_elem_of_further, list_elem_of_here.
Qed.

(** The events of that run from the last submission before frame 10 to
    frame 20. *)
Example await_any_between_frames :
  take 8 (drop 16 (trace (run (λ x : nat, x * 10) 3
                              (@finishing nat [(9, 1); (13, 0)])
                              [1; 2; 3; 4; 5; 6; 7]).2)) =
    [Submit_data 5 4 5; Get_result 0 (Some (10, 1)); Showarray 10;
     Is_ready false; Await_any; Finished 2;
     Get_result 1 (Some (20, 2)); Showarray 20].
Proof. vm_compute. reflexivity. Qed.

(** C9, at [imagelist = [7]]. *)
Lemma single_image_never_submitted_witness :
  ∃ w, do_inference (λ x : nat, x * 10) (@calm nat) 2 [7] (new_pipeline 2) =
         (Return (Locals 0 0), w) ∧
       trace w = [Await_all; Has_completed_request false; Print_total 1] ∧
       submitted (trace w) = [] ∧ shown (trace w) = [].
Proof.
  apply (single_image_never_submitted (λ x : nat, x * 10) calm 2 2 7).
  intros t. reflexivity.
Defined.

(** Three images, two infer requests, an engine that finishes a request
    only when waited for: the whole trace.  Images 1 and 2 are submitted and
    their frames shown; image 3 is not submitted; 3 frames are reported. *)
Example three_images_two_frames :
  trace (run (λ x : nat, x * 10) 2 (@calm nat) [1; 2; 3]).2 =
    [Get_result 0 None; Is_ready true; Submit_data 1 0 1;
     Get_result 0 None; Is_ready true; Submit_data 2 1 2;
     Await_all; Finished 0; Finished 1;
     Has_completed_request true; Get_result 0 (Some (10, 1)); Showarray 10;
     Has_completed_request true; Get_result 1 (Some (20, 2)); Showarray 20;
     Has_completed_request false; Print_total 3].
Proof. vm_compute. reflexivity. Qed.

(** The engine raises at the third submission (its ninth call): the error
    surfaces there, after two submissions and before any frame. *)
Example engine_error_on_third_submission :
  run (λ x : nat, x * 10) 3 (failing_at 8 42) [1; 2; 3; 4; 5; 6; 7] =
    (Raise (EngineError 42),
     World 3 [Request 0 1 1; Request 1 2 2] ∅ 8
           [Get_result 0 None; Is_ready true; Submit_data 1 0 1;
            Get_result 0 None; Is_ready true; Submit_data 2 1 2;
            Get_result 0 None; Is_ready true; Raised 42]).
Proof. vm_compute. reflexivity. Qed.

(** Two infer requests, four images, completions in the order 1, 0, 2:
    frames 10, 20, 30 are shown in this order. *)
Example out_of_order_completions :
  shown (trace (run (λ x : nat, x * 10) 2 (@finishing nat [(6, 1)])
                    [1; 2; 3; 4]).2) = [10; 20; 30].
Proof. vm_compute. reflexivity. Qed.

(** C1, with two infer requests and request 1 finishing before request 0:
    the run returns and three frames are shown, the i-th for image i. *)
Lemma results_shown_in_input_order_witness :
  ∃ l w, run (λ x : nat, x * 10) 2 (@finishing nat [(6, 1)]) [1; 2; 3; 4] =
           (Return l, w) ∧
         length (shown (trace w)) = 3 ∧
         ∀ i image, i < 3 → [1; 2; 3; 4] !! i = Some image →
                    shown (trace w) !! i = Some (image * 10).
Proof.
  apply (proj2 (results_shown_in_input_order (λ x : nat, x * 10)
                  (finishing [(6, 1)]) 2 [1; 2; 3; 4] 0));
    [intros t; reflexivity|lia].
Defined.

(** C5: with two infer requests and a slow request 0, the six submissions
    are all made before any frame is shown. *)
Example outstanding_grows_with_the_list :
  outstanding (take 22 (trace (run (λ x : nat, x * 10) 2 (@slow_first nat)
                                   [1; 2; 3; 4; 5; 6; 7]).2)) = 6.
Proof. vm_compute. reflexivity. Qed.

(** C6: the engine finishes requests 0 and 1 and then raises at the third
    submission (its ninth call): the error surfaces while both results are
    held for the driver, and neither frame is ever shown. *)
Lemma finished_results_lost_on_error :
  ¬ delivers_finished_before_raise
      (run (λ x : nat, x * 10) 3
           (finishing_then_failing [(7, 0); (7, 1)] 8 42)
           [1; 2; 3; 4; 5; 6; 7]).
Proof.
  intros H.
  assert (Hr : raises (run (λ x : nat, x * 10) 3
                           (finishing_then_failing [(7, 0); (7, 1)] 8 42)
                           [1; 2; 3; 4; 5; 6; 7])).
  { eexists. vm_compute. reflexivity. }
  apply H in Hr. vm_compute in Hr. lia.
Qed.

(** The whole of that run. *)
Example error_with_two_results_held :
  run (λ x : nat, x * 10) 3 (finishing_then_failing [(7, 0); (7, 1)] 8 42)
      [1; 2; 3; 4; 5; 6; 7] =
    (Raise (EngineError 42),
     World 3 [] {[0 := (10, 1); 1 := (20, 2)]} 8
           [Get_result 0 None; Is_ready true; Submit_data 1 0 1;
            Get_result 0 None; Is_ready true; Submit_data 2 1 2;
            Get_result 0 None; Finished 0; Finished 1;
            Is_ready true; Raised 42]).
Proof. vm_compute. reflexivity. Qed.

(** * Concrete runs and datasets beyond the claims *)

(** X3, at [imagelist = [1; 2; 3]] with two infer requests. *)
Lemma nothing_left_at_return_witness :
  ∃ l w, run (λ x : nat, x * 10) 2 (@calm nat) [1; 2; 3] = (Return l, w) ∧
         shown (trace w) = [10; 20] ∧
         length (finished (trace w)) = 2 ∧
         busy w = [] ∧ pending_set w = ∅.
Proof.
  eexists _, _. split; [vm_compute; reflexivity|].
  eapply (nothing_left_at_return (λ x : nat, x * 10) calm 2 [1; 2; 3] 6).
  vm_compute. reflexivity.
Defined.

(** X4, at [imagelist = [1; 2; 3]] with two infer requests. *)
Lemma never_waits_with_enough_requests_witness :
  Await_any ∉ trace (run (λ x : nat, x * 10) 2 (@calm nat) [1; 2; 3]).2.
Proof.
  apply (never_waits_with_enough_requests (λ x : nat, x * 10) calm 2
           [1; 2; 3] 6).
  simpl. lia.
Defined.

(** X6, at [imagelist = [1; 2; 3]]: the picture left is that of image 2;
    the picture of a frame is the frame plus one. *)
Lemma display_ends_one_image_short_witness :
  show_all (λ frame : nat, frame + 1)
           (shown (trace (run (λ x : nat, x * 10) 2 (@calm nat)
                              [1; 2; 3]).2)) [7] =
    (Some 1, [7; 21]).
Proof.
  apply (display_ends_one_image_short (λ x : nat, x * 10) calm 2 [1; 2; 3]
           (λ frame : nat, frame + 1) [7] 2);
    [intros t; reflexivity|lia|simpl; lia|reflexivity].
Defined.

(** X8, for the three files. *)
Lemma KitsDataset_splits_share_out_witness :
  ∃ train val line_train line_val,
    KitsDataset_init three_masks case_in_d reverse "d" "train" () =
      inr (train, line_train) ∧
    KitsDataset_init three_masks case_in_d reverse "d" "val" () =
      inr (val, line_val) ∧
    dataset train ++ dataset val ≡ₚ
      three_masks "d/case_*/segmentation_frames/*png" ∧
    (∀ mask, mask ∈ dataset val ↔
             mask ∈ three_masks "d/case_*/segmentation_frames/*png" ∧
             case_in_d mask ∈ valcases) ∧
    (∀ mask, mask ∈ dataset train ↔
             mask ∈ three_masks "d/case_*/segmentation_frames/*png" ∧
             case_in_d mask ∉ valcases) ∧
    KitsDataset_len train + KitsDataset_len val =
      length (three_masks "d/case_*/segmentation_frames/*png").
Proof.
  apply (KitsDataset_splits_share_out three_masks case_in_d reverse "d" ());
    [intros masks; apply reverse_Permutation|discriminate].
Defined.

(** X9, for the three files: the validation set is the two files of
    patient 16, in ascending order. *)
Lemma KitsDataset_val_sorted_witness :
  ∃ val line,
    KitsDataset_init three_masks case_in_d reverse "d" "val" () =
      inr (val, line) ∧
    dataset val = ["d/case_00016/segmentation_frames/1.png";
                   "d/case_00016/segmentation_frames/2.png"] ∧
    StronglySorted str_le (dataset val).
Proof.
  eexists _, _. split; [vm_compute; reflexivity|]. split; [reflexivity|].
  eapply (KitsDataset_val_sorted three_masks case_in_d reverse "d" ()).
  vm_compute. reflexivity.
Defined.

(** X10, for a directory with the files of patient 16 only, as the
    notebook has it. *)
Lemma KitsDataset_train_can_be_empty_witness :
  ∃ train,
    KitsDataset_init val_masks_only case_in_d reverse "d" "train" () =
      inr (train,
           "Created train dataset with 0 items. Base directory for data: d")
    ∧ KitsDataset_len train = 0.
Proof.
  apply (KitsDataset_train_can_be_empty val_masks_only case_in_d reverse
           "d" ()).
  - intros masks. apply reverse_Permutation.
  - discriminate.
  - apply Forall_forall. repeat constructor; by vm_compute.
Defined.
